(** * Playlist engine of reproductor_musica_python

    Shallow embedding of [src/models/node.py] (class [NodoCancion]) and
    [src/models/playlist.py] (class [ListaReproduccion]).

    Python objects live in a heap: a [gmap loc nodo] from object
    references to node records.  Object identity is the reference
    ([loc]); [NodoCancion] defines no [__eq__], so the [==] and [!=]
    tests of the playlist compare references.  A dereference of [None]
    (an [AttributeError] in Python) or of a dangling reference makes the
    computation fail ([None] in the state/error monad below). *)

From Stdlib Require Import List String Ascii ZArith Lia DecimalString DecimalZ DecimalPos.
From stdpp Require Import base gmap list.

Import ListNotations.

Open Scope nat_scope.

(** Object references. *)
Abbreviation loc := nat (only parsing).

(** ** [NodoCancion] (src/models/node.py) *)
Record nodo := mk_nodo {
  titulo : string;
  artista : string;
  duracion : Z;
  ruta : string;
  anterior : loc;
  siguiente : loc
}.

Definition set_anterior_nodo (n : nodo) (p : loc) : nodo :=
  {| titulo := titulo n; artista := artista n; duracion := duracion n;
     ruta := ruta n; anterior := p; siguiente := siguiente n |}.

Definition set_siguiente_nodo (n : nodo) (q : loc) : nodo :=
  {| titulo := titulo n; artista := artista n; duracion := duracion n;
     ruta := ruta n; anterior := anterior n; siguiente := q |}.

(** ** Program state: the heap and the fields of [ListaReproduccion]. *)
Record estado := mk_estado {
  heap : gmap loc nodo;
  actual : option loc;
  primero : option loc;
  tamanio : nat;
  libre : loc            (** next fresh object reference *)
}.

Definition with_heap (s : estado) (h : gmap loc nodo) : estado :=
  mk_estado h (actual s) (primero s) (tamanio s) (libre s).
Definition with_actual (s : estado) (a : option loc) : estado :=
  mk_estado (heap s) a (primero s) (tamanio s) (libre s).
Definition with_primero (s : estado) (p : option loc) : estado :=
  mk_estado (heap s) (actual s) p (tamanio s) (libre s).
Definition with_tamanio (s : estado) (n : nat) : estado :=
  mk_estado (heap s) (actual s) (primero s) n (libre s).

(** ** A state and error monad *)
Module PyM.

Definition M (A : Type) : Type := estado -> option (estado * A).

Definition ret {A} (a : A) : M A := fun s => Some (s, a).

Definition bind {A B} (m : M A) (k : A -> M B) : M B :=
  fun s => match m s with
           | Some (s', a) => k a s'
           | None => None
           end.

(** A Python exception (here only [AttributeError] on [None]). *)
Definition raise {A} : M A := fun _ => None.

End PyM.

Import PyM.

Notation "'let*' x ':=' m 'in' k" := (bind m (fun x => k))
  (at level 200, x name, m at level 100, k at level 200).
Notation "m ;;; k" := (bind m (fun _ => k)) (at level 100, right associativity).

(** Field reads and writes of [self]. *)
Definition get_actual : M (option loc) := fun s => Some (s, actual s).
Definition get_primero : M (option loc) := fun s => Some (s, primero s).
Definition get_tamanio : M nat := fun s => Some (s, tamanio s).
Definition put_actual (a : option loc) : M unit := fun s => Some (with_actual s a, tt).
Definition put_primero (p : option loc) : M unit := fun s => Some (with_primero s p, tt).
Definition put_tamanio (n : nat) : M unit := fun s => Some (with_tamanio s n, tt).

(** Attribute access on a value that may be [None]. *)
Definition deref (o : option loc) : M loc :=
  match o with Some l => ret l | None => raise end.

(** Reading and writing the attributes of a node object. *)
Definition leer (l : loc) : M nodo :=
  fun s => match heap s !! l with
           | Some n => Some (s, n)
           | None => None
           end.

Definition escribir (l : loc) (n : nodo) : M unit :=
  fun s => Some (with_heap s (<[l := n]> (heap s)), tt).

(** [l.anterior = p] *)
Definition set_anterior (l p : loc) : M unit :=
  let* n := leer l in escribir l (set_anterior_nodo n p).

(** [l.siguiente = q] *)
Definition set_siguiente (l q : loc) : M unit :=
  let* n := leer l in escribir l (set_siguiente_nodo n q).

(** [NodoCancion(titulo, artista, duracion, ruta)]: a fresh object whose
    [anterior] and [siguiente] are the object itself. *)
Definition nuevo_nodo (t a : string) (d : Z) (r : string) : M loc :=
  fun s => let l := libre s in
    Some (mk_estado (<[l := mk_nodo t a d r l l]> (heap s))
                    (actual s) (primero s) (tamanio s) (S l), l).

(** ** [ListaReproduccion] (src/models/playlist.py) *)

(** [__init__] *)
Definition lista_vacia : estado := mk_estado ∅ None None 0 0.

(** [esta_vacia] *)
Definition esta_vacia : M bool :=
  let* n := get_tamanio in ret (Nat.eqb n 0).

(** [agregar_cancion] *)
Definition agregar_cancion (titulo artista : string) (duracion : Z) (ruta : string)
  : M loc :=
  let* nuevo := nuevo_nodo titulo artista duracion ruta in
  let* vacia := esta_vacia in
  (if vacia then
     put_actual (Some nuevo) ;;;
     put_primero (Some nuevo)
   else
     let* p := get_primero in let* p := deref p in
     let* np := leer p in
     let ultimo_nodo := anterior np in
     let* p := get_primero in let* p := deref p in
     set_siguiente nuevo p ;;;
     set_anterior nuevo ultimo_nodo ;;;
     set_siguiente ultimo_nodo nuevo ;;;
     let* p := get_primero in let* p := deref p in
     set_anterior p nuevo) ;;;
  let* n := get_tamanio in
  put_tamanio (n + 1) ;;;
  ret nuevo.

(** [eliminar_cancion_actual] *)
Definition eliminar_cancion_actual : M (option loc) :=
  let* vacia := esta_vacia in
  if vacia then ret None else
  let* nodo_eliminado := get_actual in
  let* n := get_tamanio in
  (if Nat.eqb n 1 then
     put_actual None ;;;
     put_primero None
   else
     let* a := get_actual in
     let* p := get_primero in
     (if decide (a = p) then
        let* p := deref p in let* np := leer p in
        put_primero (Some (siguiente np))
      else ret tt) ;;;
     (* self.actual.anterior.siguiente = self.actual.siguiente *)
     let* a := get_actual in let* a := deref a in let* na := leer a in
     let* a' := get_actual in let* a' := deref a' in let* na' := leer a' in
     set_siguiente (anterior na') (siguiente na) ;;;
     (* self.actual.siguiente.anterior = self.actual.anterior *)
     let* a := get_actual in let* a := deref a in let* na := leer a in
     let* a' := get_actual in let* a' := deref a' in let* na' := leer a' in
     set_anterior (siguiente na') (anterior na) ;;;
     (* self.actual = self.actual.siguiente *)
     let* a := get_actual in let* a := deref a in let* na := leer a in
     put_actual (Some (siguiente na))) ;;;
  let* n := get_tamanio in
  put_tamanio (n - 1) ;;;
  ret nodo_eliminado.

(** [siguiente_cancion] *)
Definition siguiente_cancion : M (option loc) :=
  let* vacia := esta_vacia in
  if vacia then ret None else
  let* a := get_actual in let* a := deref a in let* na := leer a in
  put_actual (Some (siguiente na)) ;;;
  get_actual.

(** [cancion_anterior] *)
Definition cancion_anterior : M (option loc) :=
  let* vacia := esta_vacia in
  if vacia then ret None else
  let* a := get_actual in let* a := deref a in let* na := leer a in
  put_actual (Some (anterior na)) ;;;
  get_actual.

(** [obtener_cancion_actual] *)
Definition obtener_cancion_actual : M (option loc) := get_actual.

(** [__len__] *)
Definition longitud : M nat := get_tamanio.

(** The [while nodo != self.primero] loop of [obtener_todas_las_canciones].
    Python's loop is unbounded; [fuel] bounds the number of tests of the
    loop condition, and running out of it stands for non-termination. *)
Fixpoint recorrer (fuel : nat) (nodo : loc) (canciones : list loc) : M (list loc) :=
  match fuel with
  | 0 => raise
  | S fuel' =>
      let* p := get_primero in
      if decide (Some nodo <> p) then
        let* n := leer nodo in
        recorrer fuel' (siguiente n) (canciones ++ [nodo])
      else ret canciones
  end.

(** [obtener_todas_las_canciones] *)
Definition obtener_todas_las_canciones (fuel : nat) : M (list loc) :=
  let* vacia := esta_vacia in
  if vacia then ret [] else
  let* p := get_primero in let* nodo := deref p in
  let canciones := [nodo] in
  let* n := leer nodo in
  recorrer fuel (siguiente n) canciones.


(** A caller's sequence of [agregar_cancion] calls; it returns the
    created nodes in call order. *)
Fixpoint agregar_varias (ts : list (string * string * Z * string)) : M (list loc) :=
  match ts with
  | [] => ret []
  | (t, a, d, r) :: ts' =>
      let* x := agregar_cancion t a d r in
      let* xs := agregar_varias ts' in
      ret (x :: xs)
  end.

(** A caller's loop calling a method [n] times. *)
Fixpoint repetir (n : nat) (m : M (option loc)) : M unit :=
  match n with
  | 0 => ret tt
  | S n' => m ;;; repetir n' m
  end.

(** The playlist after a sequence of [agregar_cancion] calls on a new
    [ListaReproduccion]. *)
Definition estado_tras (ts : list (string * string * Z * string)) : estado :=
  match agregar_varias ts lista_vacia with
  | Some (s, _) => s
  | None => lista_vacia
  end.

(** Three tracks, as in the scenario of the spec. *)
Definition tres_canciones : list (string * string * Z * string) :=
  [("A"%string, "Artista"%string, 125%Z, "a.mp3"%string); ("B"%string, "Artista"%string, 200%Z, "b.mp3"%string);
   ("C"%string, "Artista"%string, 61%Z, "c.mp3"%string)].

(** The playlist after appending [tres_canciones]. *)
Definition lista_tres : estado := estado_tras tres_canciones.

(** [lista_tres] after one [eliminar_cancion_actual]. *)
Definition lista_tras_eliminar : estado :=
  match eliminar_cancion_actual lista_tres with Some (s, _) => s | None => lista_tres end.

(** Two distinct node objects (references 0 and 1) carrying the same
    track data, linked as a ring. *)
Definition dos_iguales : estado :=
  mk_estado (<[0 := mk_nodo "T"%string "Artista"%string 100%Z "t.mp3"%string 1 1]>
               (<[1 := mk_nodo "T"%string "Artista"%string 100%Z "t.mp3"%string 0 0]> ∅))
            (Some 0) (Some 0) 2 2.

(** ** Reachable states *)

(** One call of a public method of [ListaReproduccion]. *)
Inductive paso : estado -> estado -> Prop :=
| paso_agregar s s' t a d r x :
    agregar_cancion t a d r s = Some (s', x) -> paso s s'
| paso_eliminar s s' x :
    eliminar_cancion_actual s = Some (s', x) -> paso s s'
| paso_siguiente s s' x :
    siguiente_cancion s = Some (s', x) -> paso s s'
| paso_anterior s s' x :
    cancion_anterior s = Some (s', x) -> paso s s'
| paso_actual s s' x :
    obtener_cancion_actual s = Some (s', x) -> paso s s'
| paso_longitud s s' x :
    longitud s = Some (s', x) -> paso s s'
| paso_todas fuel s s' x :
    obtener_todas_las_canciones fuel s = Some (s', x) -> paso s s'.

Inductive alcanzable : estado -> Prop :=
| alc_inicio : alcanzable lista_vacia
| alc_paso s s' : alcanzable s -> paso s s' -> alcanzable s'.

(** ** The ring in the heap *)

(** [dseg h p L q]: the nodes [L] are linked forward in the heap, the
    first one's [anterior] is [p] and the last one's [siguiente] is [q]. *)
Fixpoint dseg (h : gmap loc nodo) (p : loc) (L : list loc) (q : loc) : Prop :=
  match L with
  | [] => True
  | x :: L' =>
      match h !! x with
      | Some n => anterior n = p /\ siguiente n = hd q L' /\ dseg h x L' q
      | None => False
      end
  end.

(** [L] is a circular doubly-linked ring: the last node links back to
    the first one in both directions. *)
Definition anillo (h : gmap loc nodo) (L : list loc) : Prop :=
  match L with
  | [] => True
  | x :: _ => dseg h (List.last L x) L x
  end.

(** The ring invariant: [L] lists the nodes from [primero] on, without
    repetition, and [tamanio] counts them. *)
Definition anillo_inv (s : estado) (L : list loc) : Prop :=
  NoDup L /\ tamanio s = length L /\ primero s = hd_error L /\ anillo (heap s) L.

(** The full representation invariant of a playlist state. *)
Record repr (s : estado) (L : list loc) : Prop := {
  repr_inv : anillo_inv s L;
  repr_actual : match actual s with None => L = [] | Some c => In c L end;
  repr_libre : forall k, libre s <= k -> heap s !! k = None
}.

(** Following [siguiente] (resp. [anterior]) [k] times from a node. *)
Fixpoint iter_siguiente (h : gmap loc nodo) (k : nat) (x : loc) : option loc :=
  match k with
  | 0 => Some x
  | S k' => match h !! x with Some n => iter_siguiente h k' (siguiente n) | None => None end
  end.

Fixpoint iter_anterior (h : gmap loc nodo) (k : nat) (x : loc) : option loc :=
  match k with
  | 0 => Some x
  | S k' => match h !! x with Some n => iter_anterior h k' (anterior n) | None => None end
  end.

(** [x] is in the ring: it is reached from [primero] in fewer than
    [tamanio] steps along [siguiente]. *)
Definition en_anillo (s : estado) (x : loc) : Prop :=
  exists p k, primero s = Some p /\ k < tamanio s /\ iter_siguiente (heap s) k p = Some x.

(** ** [NodoCancion.__str__] (src/models/node.py) *)

(** Python's [str] of an integer, in decimal with a leading [-] when
    negative. *)
Definition str_Z (z : Z) : string := DecimalString.NilZero.string_of_int (Z.to_int z).

Fixpoint ceros (k : nat) : string :=
  match k with
  | 0 => EmptyString
  | S k' => String "0"%char (ceros k')
  end.

(** The format spec ["0wd"] of an integer: the sign, then zeros up to
    width [w], then the decimal digits. *)
Definition formato_0w (w : nat) (n : Z) : string :=
  let signo := if (n <? 0)%Z then "-"%string else EmptyString in
  let digitos := str_Z (Z.abs n) in
  (signo ++ ceros (w - String.length signo - String.length digitos) ++ digitos)%string.

(** [minutos = duracion // 60; segundos = duracion % 60;
    f"{minutos}:{segundos:02d}"], in [__str__] and in
    [PlaylistModel.data] (column 2). *)
Definition formato_duracion (duracion : Z) : string :=
  let minutos := (duracion / 60)%Z in
  let segundos := (duracion mod 60)%Z in
  (str_Z minutos ++ ":" ++ formato_0w 2 segundos)%string.

(** [__str__]: [f"{self.titulo} - {self.artista} ({duracion_str})"] *)
Definition nodo_str (n : nodo) : string :=
  (titulo n ++ " - " ++ artista n ++ " (" ++ formato_duracion (duracion n) ++ ")")%string.

(** ** Track data of the node objects *)

Definition datos (n : nodo) : string * string * Z * string :=
  (titulo n, artista n, duracion n, ruta n).

(** No object reference at or above [libre] is allocated. *)
Definition fresco (s : estado) : Prop := forall k, libre s <= k -> heap s !! k = None.

(** Every node of [h] is still in [h'] with the same track data. *)
Definition conserva_datos (h h' : gmap loc nodo) : Prop :=
  forall l n, h !! l = Some n -> exists n', h' !! l = Some n' /\ datos n' = datos n.

(** A computation that keeps the heap's allocation discipline and the
    track data of every existing node. *)
Definition conserva {A} (m : M A) : Prop :=
  forall s s' a, m s = Some (s', a) -> fresco s -> fresco s' /\ conserva_datos (heap s) (heap s').

(** ** [PlaylistWidget] and [PlaylistModel] (src/ui/playlist_widget.py)

    The fields of the widget and of its table model that the handlers
    read and write; the Qt view itself is not modelled. *)
Record widget := mk_widget {
  lista_reproduccion : estado;          (** [self.lista_reproduccion] *)
  canciones_modelo : list loc;          (** [self.playlist_model.canciones] *)
  cancion_actual_modelo : option loc    (** [self.playlist_model.cancion_actual] *)
}.

Module PyW.

Definition W (A : Type) : Type := widget -> option (widget * A).

Definition retW {A} (a : A) : W A := fun w => Some (w, a).

Definition bindW {A B} (m : W A) (k : A -> W B) : W B :=
  fun w => match m w with
           | Some (w', a) => k a w'
           | None => None
           end.

End PyW.

Import PyW.

Notation "'letw' x ':=' m 'in' k" := (bindW m (fun x => k))
  (at level 200, x name, m at level 100, k at level 200).

(** A call of a method of [self.lista_reproduccion]. *)
Definition en_lista {A} (m : M A) : W A :=
  fun w => match m (lista_reproduccion w) with
           | Some (s', a) => Some (mk_widget s' (canciones_modelo w) (cancion_actual_modelo w), a)
           | None => None
           end.

(** [PlaylistModel.update_canciones] *)
Definition update_canciones (canciones : list loc) : W unit :=
  fun w => Some (mk_widget (lista_reproduccion w) canciones (cancion_actual_modelo w), tt).

(** [PlaylistModel.set_cancion_actual] *)
Definition set_cancion_actual (cancion : option loc) : W unit :=
  fun w => Some (mk_widget (lista_reproduccion w) (canciones_modelo w) cancion, tt).

(** [PlaylistWidget._update_view]; a [NodoCancion] defines neither
    [__bool__] nor [__len__], so [if cancion_actual:] tests for [None]. *)
Definition update_view (fuel : nat) : W unit :=
  letw canciones := en_lista (obtener_todas_las_canciones fuel) in
  letw _ := update_canciones canciones in
  letw cancion_actual := en_lista obtener_cancion_actual in
  match cancion_actual with
  | Some c => set_cancion_actual (Some c)
  | None => retW tt
  end.

(** [while self.lista_reproduccion.obtener_cancion_actual() != objetivo:
        self.lista_reproduccion.siguiente_cancion()]
    with at most [fuel] tests of the condition. *)
Fixpoint avanzar_hasta (fuel : nat) (objetivo : option loc) : M unit :=
  match fuel with
  | 0 => raise
  | S fuel' =>
      let* a := obtener_cancion_actual in
      if decide (a <> objetivo) then
        siguiente_cancion ;;; avanzar_hasta fuel' objetivo
      else ret tt
  end.

(** [if nodo: signal.emit(nodo)]: the emitted values. *)
Definition emitir_si (o : option loc) : list loc :=
  match o with Some x => [x] | None => [] end.

(** [PlaylistWidget._on_remove_clicked]: [indexes] are the rows of
    [self.table_view.selectedIndexes()]; the result lists the nodes sent
    by [song_removed]. *)
Definition on_remove_clicked (fuel : nat) (indexes : list nat) : W (list loc) :=
  match indexes with
  | [] => retW []
  | row :: _ =>
      letw vacia := en_lista esta_vacia in
      if vacia then retW [] else
      letw canciones := en_lista (obtener_todas_las_canciones fuel) in
      letw emitidos :=
        match canciones !! row with
        | None => retW []
        | Some nodo_a_eliminar =>
            en_lista (
              let* nodo_actual_temp := obtener_cancion_actual in
              let* a := obtener_cancion_actual in
              if decide (Some nodo_a_eliminar = a) then
                let* nodo_eliminado := eliminar_cancion_actual in
                ret (emitir_si nodo_eliminado)
              else
                avanzar_hasta fuel (Some nodo_a_eliminar) ;;;
                let* nodo_eliminado := eliminar_cancion_actual in
                let* vacia := esta_vacia in
                (if negb vacia && bool_decide (nodo_actual_temp <> nodo_eliminado)
                 then avanzar_hasta fuel nodo_actual_temp
                 else ret tt) ;;;
                ret (emitir_si nodo_eliminado))
        end in
      letw _ := update_view fuel in
      retW emitidos
  end.

(** [PlaylistWidget._on_table_double_clicked] for a click on row [row];
    the result lists the values sent by [song_selected]. *)
Definition on_table_double_clicked (fuel : nat) (row : nat) : W (list (option loc)) :=
  letw vacia := en_lista esta_vacia in
  if vacia then retW [] else
  letw canciones := en_lista (obtener_todas_las_canciones fuel) in
  match canciones !! row with
  | None => retW []
  | Some nodo_seleccionado =>
      letw a := en_lista obtener_cancion_actual in
      letw seguir :=
        if decide (Some nodo_seleccionado <> a) then
          letw nodo_actual := en_lista obtener_cancion_actual in
          match nodo_actual with
          | None => retW false
          | Some _ =>
              letw _ := en_lista (avanzar_hasta fuel (Some nodo_seleccionado)) in
              letw _ := set_cancion_actual (Some nodo_seleccionado) in
              retW true
          end
        else retW true in
      if seguir then
        letw c := en_lista obtener_cancion_actual in
        retW [c]
      else retW []
  end.

(** [PlaylistWidget.next_song] *)
Definition next_song (fuel : nat) : W (option loc) :=
  letw nodo := en_lista siguiente_cancion in
  letw _ := match nodo with
            | Some n => set_cancion_actual (Some n)
            | None => retW tt
            end in
  letw _ := update_view fuel in
  retW nodo.

(** [PlaylistWidget.cancion_anterior] *)
Definition cancion_anterior_widget (fuel : nat) : W (option loc) :=
  letw nodo := en_lista cancion_anterior in
  letw _ := match nodo with
            | Some n => set_cancion_actual (Some n)
            | None => retW tt
            end in
  letw _ := update_view fuel in
  retW nodo.

(** [PlaylistModel.data] for [role == Qt.DisplayRole]: [valido] is
    [index.isValid()]; the outer [None] is an [AttributeError], the inner
    one the [None] the method returns. *)
Definition data_display (h : gmap loc nodo) (canciones : list loc) (valido : bool)
    (fila columna : Z) : option (option string) :=
  if negb valido || negb ((0 <=? fila)%Z && (fila <? Z.of_nat (length canciones))%Z)
  then Some None else
  match canciones !! Z.to_nat fila with
  | None => Some None
  | Some cancion =>
      if (columna =? 0)%Z then
        match h !! cancion with Some n => Some (Some (titulo n)) | None => None end
      else if (columna =? 1)%Z then
        match h !! cancion with Some n => Some (Some (artista n)) | None => None end
      else if (columna =? 2)%Z then
        match h !! cancion with
        | Some n => Some (Some (formato_duracion (duracion n)))
        | None => None
        end
      else Some None
  end.

(** The table model matches the playlist: it lists the ring's nodes
    from [primero] on and, when there is a current song, highlights it. *)
Definition sincronizado (w : widget) : Prop :=
  exists L, repr (lista_reproduccion w) L /\ canciones_modelo w = L /\
    (forall c, actual (lista_reproduccion w) = Some c -> cancion_actual_modelo w = Some c).

(** ** Lemmas on segments and rings *)

Lemma last_default (L : list loc) (d d' : loc) :
  L <> [] -> List.last L d = List.last L d'.
Proof.
  induction L as [|x L IH]; [congruence|].
  intros _. destruct L as [|y L]; [reflexivity|].
  apply IH. discriminate.
Qed.

Lemma last_cons (x : loc) (L : list loc) (d : loc) :
  List.last (x :: L) d = List.last L x.
Proof.
  destruct L as [|y L]; [reflexivity|].
  transitivity (List.last (y :: L) d); [reflexivity|].
  apply last_default. discriminate.
Qed.

Lemma last_app_ne (A B : list loc) (d : loc) :
  B <> [] -> List.last (A ++ B) d = List.last B d.
Proof.
  intros HB. induction A as [|a A IH]; [reflexivity|].
  rewrite <- app_comm_cons, last_cons, <- IH.
  apply last_default. destruct A; simpl; [exact HB | discriminate].
Qed.

Lemma hd_app (A B : list loc) (d : loc) :
  hd d (A ++ B) = hd (hd d B) A.
Proof. destruct A; reflexivity. Qed.

Lemma dseg_app h p (L1 L2 : list loc) q :
  dseg h p (L1 ++ L2) q <-> dseg h p L1 (hd q L2) /\ dseg h (List.last L1 p) L2 q.
Proof.
  revert p. induction L1 as [|x L1 IH]; intros p.
  - simpl. tauto.
  - change ((x :: L1) ++ L2) with (x :: (L1 ++ L2)).
    rewrite last_cons. cbn [dseg]. destruct (h !! x) as [n|]; [|tauto].
    rewrite hd_app, IH. tauto.
Qed.

Lemma dseg_frame h h' p (L : list loc) q :
  (forall x, In x L -> h' !! x = h !! x) -> dseg h p L q -> dseg h' p L q.
Proof.
  revert p. induction L as [|x L IH]; intros p Hh; simpl; [tauto|].
  rewrite (Hh x (or_introl eq_refl)).
  destruct (h !! x); [|tauto].
  intros (? & ? & ?). repeat split; auto.
  apply IH; auto. intros y Hy. apply Hh. right. exact Hy.
Qed.

Lemma dseg_insert_notin h p (L : list loc) q k n :
  ~ In k L -> dseg h p L q -> dseg (<[k := n]> h) p L q.
Proof.
  intros Hk. apply dseg_frame. intros x Hx.
  apply lookup_insert_ne. intros ->. contradiction.
Qed.

Lemma dseg_lookup h p (L : list loc) q x :
  dseg h p L q -> In x L -> exists n, h !! x = Some n.
Proof.
  revert p. induction L as [|y L IH]; intros p; simpl; [tauto|].
  destruct (h !! y) eqn:Hy; [|tauto].
  intros (_ & _ & Hd) [<-|Hx]; eauto.
Qed.

(** Rewriting [anterior] of the first node of a segment. *)
Lemma dseg_set_first h p p' x (M : list loc) q n :
  dseg h p (x :: M) q -> ~ In x M -> h !! x = Some n ->
  dseg (<[x := set_anterior_nodo n p']> h) p' (x :: M) q.
Proof.
  intros Hd Hx Hn. simpl in *. rewrite Hn in Hd.
  destruct Hd as (_ & Hs & Hd).
  rewrite lookup_insert_eq. simpl. repeat split; auto.
  apply dseg_insert_notin; auto.
Qed.

(** Rewriting [siguiente] of the last node of a segment. *)
Lemma dseg_set_last h p (M : list loc) y q q' n :
  dseg h p (M ++ [y]) q -> ~ In y M -> h !! y = Some n ->
  dseg (<[y := set_siguiente_nodo n q']> h) p (M ++ [y]) q'.
Proof.
  intros Hd Hy Hn. apply dseg_app in Hd as [Hd1 Hd2].
  apply dseg_app. split.
  - apply dseg_insert_notin; auto.
  - simpl in *. rewrite Hn in Hd2. rewrite lookup_insert_eq. simpl.
    destruct Hd2 as (? & _ & _). auto.
Qed.

Lemma hd_ne (A : list loc) (d d' : loc) : A <> [] -> hd d A = hd d' A.
Proof. destruct A; [congruence | reflexivity]. Qed.

Lemma anillo_dseg h (L : list loc) d :
  L <> [] -> anillo h L <-> dseg h (List.last L d) L (hd d L).
Proof.
  destruct L as [|x L]; [congruence|]. intros _. simpl (hd d (x :: L)).
  unfold anillo. rewrite (last_default (x :: L) x d) by discriminate. tauto.
Qed.

(** A ring may be read from any of its nodes. *)
Lemma anillo_rot h (A B : list loc) :
  anillo h (A ++ B) <-> anillo h (B ++ A).
Proof.
  destruct A as [|a A']; [rewrite app_nil_r; tauto|].
  destruct B as [|b B']; [rewrite app_nil_r; tauto|].
  set (A := a :: A'). set (B := b :: B').
  assert (HA : A <> []) by discriminate. assert (HB : B <> []) by discriminate.
  rewrite (anillo_dseg h (A ++ B) a), (anillo_dseg h (B ++ A) a)
    by (destruct A'; discriminate).
  rewrite !hd_app, !last_app_ne by assumption.
  rewrite !dseg_app.
  rewrite (last_default A (List.last B a) a) by assumption.
  rewrite (last_default B (List.last A a) a) by assumption.
  rewrite (hd_ne A (hd a B) a), (hd_ne B (hd a A) a) by assumption.
  tauto.
Qed.

Lemma anillo_al_frente h (A B : list loc) x :
  anillo h (A ++ x :: B) -> anillo h (x :: B ++ A).
Proof. intros H. apply anillo_rot in H. exact H. Qed.

Lemma anillo_al_final h (A B : list loc) x :
  anillo h (A ++ x :: B) -> anillo h ((B ++ A) ++ [x]).
Proof.
  intros H. rewrite <- app_assoc.
  replace (A ++ x :: B) with ((A ++ [x]) ++ B) in H
    by (rewrite <- app_assoc; reflexivity).
  apply anillo_rot in H. exact H.
Qed.

Lemma anillo_frente h x (M : list loc) :
  anillo h (x :: M) ->
  exists n, h !! x = Some n /\ anterior n = List.last M x /\
            siguiente n = hd x M /\ dseg h x M x.
Proof.
  unfold anillo. rewrite last_cons. simpl.
  destruct (h !! x) as [n|]; [|tauto]. intros (? & ? & ?). eauto.
Qed.

Lemma dseg_ultimo h p (M : list loc) y q :
  dseg h p (M ++ [y]) q ->
  exists n, h !! y = Some n /\ anterior n = List.last M p /\ siguiente n = q /\ dseg h p M y.
Proof.
  rewrite dseg_app. simpl. intros [Hd H].
  destruct (h !! y) as [n|]; [|tauto]. destruct H as (? & ? & _). eauto.
Qed.

(** The local ring property at every node. *)
Lemma anillo_siguiente_anterior h (L : list loc) x :
  anillo h L -> In x L ->
  exists n y m, h !! x = Some n /\ siguiente n = y /\ h !! y = Some m /\ anterior m = x.
Proof.
  intros Hr Hx. apply in_split in Hx as (A & B & ->).
  apply anillo_al_frente, anillo_frente in Hr as (n & Hn & Ha & Hs & Hd).
  exists n, (siguiente n).
  destruct (B ++ A) as [|y M] eqn:E; simpl in Hs.
  - exists n. simpl in Ha. rewrite Hs. auto.
  - simpl in Hd. rewrite Hs.
    destruct (h !! y) as [m|]; [|tauto]. destruct Hd as (? & _). eauto.
Qed.

Lemma anillo_anterior_siguiente h (L : list loc) x :
  anillo h L -> In x L ->
  exists n y m, h !! x = Some n /\ anterior n = y /\ h !! y = Some m /\ siguiente m = x.
Proof.
  intros Hr Hx. apply in_split in Hx as (A & B & ->).
  apply anillo_al_frente, anillo_frente in Hr as (n & Hn & Ha & Hs & Hd).
  exists n, (anterior n).
  destruct (B ++ A) as [|y0 M0] eqn:E.
  - exists n. simpl in Ha, Hs. rewrite Ha. auto.
  - destruct (@exists_last _ (y0 :: M0)) as (M & z & EM); [discriminate|].
    rewrite EM in Ha, Hd. rewrite last_app_ne in Ha by discriminate. simpl in Ha.
    apply dseg_ultimo in Hd as (m & Hm & _ & Hs' & _).
    rewrite Ha. eauto.
Qed.

Lemma iter_siguiente_dseg h p x (M : list loc) q :
  dseg h p (x :: M) q -> iter_siguiente h (length (x :: M)) x = Some q.
Proof.
  revert x p. induction M as [|y M IH]; intros x p Hd; simpl in *;
    destruct (h !! x) as [n|]; try tauto; destruct Hd as (_ & -> & Hd).
  - reflexivity.
  - apply (IH y x Hd).
Qed.

Lemma iter_anterior_dseg h p (M : list loc) y q :
  dseg h p (M ++ [y]) q -> iter_anterior h (length (M ++ [y])) y = Some p.
Proof.
  revert y q. induction M as [|z M IH] using rev_ind; intros y q Hd.
  - simpl in *. destruct (h !! y) as [n|]; [|tauto]. destruct Hd as (-> & _). reflexivity.
  - apply dseg_ultimo in Hd as (n & Hn & Ha & _ & Hd).
    rewrite last_app_ne in Ha by discriminate. simpl in Ha.
    rewrite length_app. simpl length. rewrite Nat.add_1_r. simpl.
    rewrite Hn, Ha. apply (IH z y Hd).
Qed.

(** Following the links [length L] times returns to the start. *)
Lemma anillo_iter_siguiente h (L : list loc) x :
  anillo h L -> In x L -> iter_siguiente h (length L) x = Some x.
Proof.
  intros Hr Hx. apply in_split in Hx as (A & B & ->).
  apply anillo_al_frente in Hr.
  replace (length (A ++ x :: B)) with (length (x :: B ++ A))
    by (simpl; rewrite !length_app; simpl; lia).
  unfold anillo in Hr. eapply iter_siguiente_dseg. exact Hr.
Qed.

Lemma anillo_iter_anterior h (L : list loc) x :
  anillo h L -> In x L -> iter_anterior h (length L) x = Some x.
Proof.
  intros Hr Hx. apply in_split in Hx as (A & B & ->).
  apply anillo_al_final in Hr.
  replace (length (A ++ x :: B)) with (length ((B ++ A) ++ [x]))
    by (rewrite !length_app; simpl; lia).
  apply (anillo_dseg _ _ x) in Hr; [|destruct (B ++ A); discriminate].
  rewrite last_app_ne in Hr by discriminate. simpl in Hr.
  eapply iter_anterior_dseg. exact Hr.
Qed.

Lemma iter_siguiente_nth h p (L : list loc) q k :
  dseg h p L q -> k < length L -> iter_siguiente h k (hd q L) = Some (nth k L q).
Proof.
  revert p k. induction L as [|x L IH]; intros p k Hd Hk; [simpl in Hk; lia|].
  destruct k as [|k]; [reflexivity|].
  simpl in *. destruct (h !! x) as [n|]; [|tauto].
  destruct Hd as (_ & -> & Hd). apply (IH x); [exact Hd | lia].
Qed.

Lemma en_anillo_In s (L : list loc) x :
  anillo_inv s L -> en_anillo s x <-> In x L.
Proof.
  intros (Hnd & Ht & Hp & Hr). unfold en_anillo. rewrite Ht, Hp.
  destruct L as [|y M]; simpl.
  - split; [intros (? & ? & ? & _); discriminate | tauto].
  - pose proof Hr as Hd. unfold anillo in Hd.
    split.
    + intros (p & k & Hpk & Hk & Hi). injection Hpk as <-.
      pose proof (iter_siguiente_nth _ _ (y :: M) y k Hd Hk) as E.
      simpl hd in E. rewrite E in Hi.
      injection Hi as <-. apply (nth_In (y :: M) y Hk).
    + intros Hx. apply (In_nth (y :: M) x y) in Hx as (k & Hk & Hn).
      exists y, k. split; [reflexivity|]. split; [exact Hk|].
      rewrite <- Hn. exact (iter_siguiente_nth _ _ (y :: M) y k Hd Hk).
Qed.

(** ** Running the monadic code one statement at a time *)

Section Pasos.
Context {A B : Type}.
Implicit Types (k : A -> M B) (s : estado).

Lemma bind_ret (a : A) k s : bind (ret a) k s = k a s.
Proof. reflexivity. Qed.

Lemma bind_assoc {C} (m : M C) (f : C -> M A) (g : A -> M B) s :
  bind (bind m f) g s = bind m (fun x => bind (f x) g) s.
Proof. unfold bind. destruct (m s) as [[s' c]|]; reflexivity. Qed.

End Pasos.

Section Primitivas.
Context {B : Type}.
Implicit Types (s : estado).

Lemma bind_get_tamanio (k : nat -> M B) s : bind get_tamanio k s = k (tamanio s) s.
Proof. reflexivity. Qed.
Lemma bind_esta_vacia (k : bool -> M B) s :
  bind esta_vacia k s = k (Nat.eqb (tamanio s) 0) s.
Proof. reflexivity. Qed.
Lemma bind_get_actual (k : option loc -> M B) s : bind get_actual k s = k (actual s) s.
Proof. reflexivity. Qed.
Lemma bind_get_primero (k : option loc -> M B) s : bind get_primero k s = k (primero s) s.
Proof. reflexivity. Qed.
Lemma bind_put_actual a (k : unit -> M B) s : bind (put_actual a) k s = k tt (with_actual s a).
Proof. reflexivity. Qed.
Lemma bind_put_primero p (k : unit -> M B) s :
  bind (put_primero p) k s = k tt (with_primero s p).
Proof. reflexivity. Qed.
Lemma bind_put_tamanio n (k : unit -> M B) s :
  bind (put_tamanio n) k s = k tt (with_tamanio s n).
Proof. reflexivity. Qed.
Lemma bind_deref l (k : loc -> M B) s : bind (deref (Some l)) k s = k l s.
Proof. reflexivity. Qed.
Lemma bind_leer l (k : nodo -> M B) s :
  bind (leer l) k s = match heap s !! l with Some n => k n s | None => None end.
Proof. unfold bind, leer. destruct (heap s !! l); reflexivity. Qed.
Lemma bind_set_siguiente l q (k : unit -> M B) s :
  bind (set_siguiente l q) k s =
  match heap s !! l with
  | Some n => k tt (with_heap s (<[l := set_siguiente_nodo n q]> (heap s)))
  | None => None
  end.
Proof. unfold set_siguiente, bind, leer. destruct (heap s !! l); reflexivity. Qed.
Lemma bind_set_anterior l p (k : unit -> M B) s :
  bind (set_anterior l p) k s =
  match heap s !! l with
  | Some n => k tt (with_heap s (<[l := set_anterior_nodo n p]> (heap s)))
  | None => None
  end.
Proof. unfold set_anterior, bind, leer. destruct (heap s !! l); reflexivity. Qed.
Lemma bind_nuevo_nodo t a d r (k : loc -> M B) s :
  bind (nuevo_nodo t a d r) k s =
  k (libre s) (mk_estado (<[libre s := mk_nodo t a d r (libre s) (libre s)]> (heap s))
                         (actual s) (primero s) (tamanio s) (S (libre s))).
Proof. reflexivity. Qed.

End Primitivas.

(** One symbolic execution step: rewrite with the first applicable
    statement equation, then simplify the record projections. *)
Ltac paso_m :=
  first
    [ rewrite bind_assoc | rewrite bind_ret | rewrite bind_get_tamanio
    | rewrite bind_esta_vacia | rewrite bind_get_actual | rewrite bind_get_primero
    | rewrite bind_put_actual | rewrite bind_put_primero | rewrite bind_put_tamanio
    | rewrite bind_deref | rewrite bind_leer | rewrite bind_set_siguiente
    | rewrite bind_set_anterior | rewrite bind_nuevo_nodo ];
  cbv beta;
  cbn [heap actual primero tamanio libre with_heap with_actual with_primero with_tamanio].

(** ** Heap effect of [agregar_cancion] and [eliminar_cancion_actual] *)

(** The three link updates of [agregar_cancion] on a non-empty ring
    [x :: M] whose last node is [List.last M x] extend it with [z]. *)
Lemma anillo_insertar h x (M : list loc) z N ny nx :
  anillo h (x :: M) -> ~ In z (x :: M) -> NoDup (x :: M) ->
  anterior N = List.last M x -> siguiente N = x ->
  (<[z := N]> h) !! (List.last M x) = Some ny ->
  (<[List.last M x := set_siguiente_nodo ny z]> (<[z := N]> h)) !! x = Some nx ->
  anillo (<[x := set_anterior_nodo nx z]>
            (<[List.last M x := set_siguiente_nodo ny z]> (<[z := N]> h)))
         ((x :: M) ++ [z]).
Proof.
  intros Hr Hz Hnd Ha Hs Hy Hx.
  set (y := List.last M x) in *.
  assert (Hd : dseg h y (x :: M) x) by (unfold anillo in Hr; rewrite last_cons in Hr; exact Hr).
  apply (dseg_insert_notin _ _ _ _ z N Hz) in Hd.
  destruct (@exists_last _ (x :: M)) as (M' & y' & E); [discriminate|].
  assert (Ey : y' = y).
  { unfold y. rewrite <- last_cons with (d := x), E. rewrite last_app_ne by discriminate. reflexivity. }
  subst y'.
  assert (HyM : ~ In y M').
  { rewrite E in Hnd. apply NoDup_app in Hnd as (_ & Hdis & _).
    intros Hin. apply (Hdis y); [by apply list_elem_of_In | set_solver]. }
  rewrite E in Hd. pose proof (dseg_set_last _ _ _ _ _ z _ Hd HyM Hy) as Hd'.
  rewrite <- E in Hd'. clear Hd.
  assert (HxM : ~ In x M).
  { apply NoDup_cons in Hnd as [HxM _]. by rewrite <- list_elem_of_In. }
  apply (dseg_set_first _ _ z _ _ _ _ Hd' HxM) in Hx.
  apply anillo_dseg with (d := x); [destruct M; discriminate|].
  rewrite last_app_ne, hd_app by discriminate. simpl (List.last [z] x). simpl (hd x [z]).
  apply dseg_app. split; [exact Hx|].
  rewrite (last_default (x :: M) z x) by discriminate. rewrite last_cons. fold y.
  simpl. assert (Hzx : z <> x) by (intros ->; apply Hz; left; reflexivity).
  assert (Hzy : z <> y).
  { intros ->. apply Hz. rewrite E. apply in_or_app. right. left. reflexivity. }
  rewrite lookup_insert_ne by congruence. rewrite lookup_insert_ne by congruence.
  rewrite lookup_insert_eq. auto.
Qed.

Lemma repr_en_heap s (L : list loc) x :
  repr s L -> In x L -> exists n, heap s !! x = Some n.
Proof.
  intros [(_ & _ & _ & Hr) _ _] Hx.
  destruct L as [|y M]; [destruct Hx|].
  unfold anillo in Hr. eapply dseg_lookup; eauto.
Qed.

Lemma repr_ne_libre s (L : list loc) x k :
  repr s L -> In x L -> libre s <= k -> x <> k.
Proof.
  intros Hs Hx Hk E. subst k. destruct (repr_en_heap _ _ _ Hs Hx) as (n & Hn).
  rewrite (repr_libre _ _ Hs x Hk) in Hn. discriminate.
Qed.

Lemma last_en (L : list loc) d : L <> [] -> In (List.last L d) L.
Proof.
  intros HL. rewrite (app_removelast_last d HL) at 2.
  apply in_or_app. right. left. reflexivity.
Qed.

Ltac rewrite_lookup :=
  match goal with H : ?h !! ?k = Some _ |- context [?h !! ?k] => rewrite H end.

(** Case split on the first heap lookup the code performs. *)
Ltac caso_lookup name :=
  match goal with
  | |- context [match ?e with Some _ => _ | None => _ end] =>
      let E := fresh name in destruct e eqn:E
  end.

Lemma agregar_spec t a d r s (L : list loc) :
  repr s L ->
  exists s', agregar_cancion t a d r s = Some (s', libre s) /\
    repr s' (L ++ [libre s]) /\
    actual s' = match L with [] => Some (libre s) | _ => actual s end /\
    primero s' = hd_error (L ++ [libre s]) /\
    tamanio s' = S (tamanio s) /\
    libre s' = S (libre s).
Proof.
  intros Hs. pose proof Hs as [(Hnd & Ht & Hp & Hr) Ha Hl].
  assert (HzL : ~ In (libre s) L) by (intros Hz; exact (repr_ne_libre _ _ _ _ Hs Hz (le_n _) eq_refl)).
  unfold agregar_cancion. repeat paso_m. rewrite Ht, Hp.
  destruct L as [|x M].
  - (* empty list: the new node becomes [actual] and [primero] *)
    cbn [length Nat.eqb hd_error]. repeat paso_m.
    eexists. split; [reflexivity|].
    destruct (actual s); [destruct Ha|].
    split; [split; [split; [|split; [|split]]| |]|]; cbn.
    + constructor; [set_solver | constructor].
    + reflexivity.
    + reflexivity.
    + rewrite lookup_insert_eq. cbn. auto.
    + auto.
    + intros k Hk. rewrite lookup_insert_ne by lia. apply Hl. lia.
    + auto.
  - (* non-empty list: link the new node before [primero] *)
    cbn [length Nat.eqb hd_error]. repeat paso_m.
    apply anillo_frente in Hr as Hfx. destruct Hfx as (nx & Hx & Hax & _ & _).
    assert (Hzx : libre s <> x) by (intros E; apply HzL; rewrite E; left; reflexivity).
    rewrite lookup_insert_ne, Hx by congruence. repeat paso_m.
    rewrite lookup_insert_eq. repeat paso_m.
    rewrite lookup_insert_eq. repeat paso_m.
    rewrite !insert_insert_eq.
    caso_lookup Ey; [|exfalso].
    2:{ assert (Hy : In (anterior nx) (x :: M)).
        { rewrite Hax, <- last_cons with (d := x).
          apply last_en. discriminate. }
        destruct (repr_en_heap _ _ _ Hs Hy) as (ny & Hny).
        rewrite lookup_insert_ne in Ey by (intros E; apply HzL; rewrite E; exact Hy).
        congruence. }
    repeat paso_m.
    caso_lookup Ex; [|exfalso].
    2:{ destruct (decide (anterior nx = x)) as [E|E].
        - rewrite E, lookup_insert_eq in Ex. discriminate.
        - rewrite lookup_insert_ne, lookup_insert_ne, Hx in Ex by congruence. discriminate. }
    repeat paso_m.
    eexists. split; [reflexivity|].
    cbn [heap actual primero tamanio libre with_heap with_actual with_primero with_tamanio].
    rewrite Hax in *.
    unfold with_tamanio, with_heap. cbn [heap actual primero tamanio libre].
    split; [|split; [reflexivity|split; [reflexivity|split; [lia|reflexivity]]]].
    assert (Hlast : In (List.last M x) (x :: M)).
    { rewrite <- last_cons with (d := x). apply last_en. discriminate. }
    constructor; cbn [heap actual primero tamanio libre].
    + split; [|split; [|split]].
      * apply NoDup_app. split; [exact Hnd|split; [|apply NoDup_singleton]].
        intros y Hy Hy'. apply list_elem_of_singleton in Hy'. subst y.
        apply HzL. by apply list_elem_of_In.
      * rewrite length_app. simpl. lia.
      * reflexivity.
      * apply anillo_insertar; auto.
    + destruct (actual s); [apply in_or_app; left; exact Ha | discriminate Ha].
    + intros k Hk.
      assert (Hxk : x <> k) by (apply (repr_ne_libre _ _ _ _ Hs (or_introl eq_refl)); lia).
      assert (Hyk : List.last M x <> k) by (apply (repr_ne_libre _ _ _ _ Hs Hlast); lia).
      rewrite !lookup_insert_ne by (congruence || lia). apply Hl. lia.
Qed.

(** The two link updates of [eliminar_cancion_actual] on a ring [c :: K]
    of at least two nodes splice [c] out and leave the ring [K]. *)
Lemma anillo_quitar h c (K : list loc) np nq :
  anillo h (c :: K) -> NoDup (c :: K) -> K <> [] ->
  h !! List.last K c = Some np ->
  (<[List.last K c := set_siguiente_nodo np (hd c K)]> h) !! hd c K = Some nq ->
  anillo (<[hd c K := set_anterior_nodo nq (List.last K c)]>
            (<[List.last K c := set_siguiente_nodo np (hd c K)]> h)) K.
Proof.
  intros Hr Hnd HK Hp Hq.
  apply anillo_frente in Hr as (nc & _ & _ & _ & Hd).
  apply NoDup_cons in Hnd as [_ HndK].
  destruct (@exists_last _ K HK) as (M' & p & EK).
  assert (Ep : List.last K c = p) by (rewrite EK; apply last_last).
  rewrite Ep in *.
  assert (HpM : ~ In p M').
  { rewrite EK in HndK. apply NoDup_app in HndK as (_ & Hdis & _).
    intros Hin. apply (Hdis p); [by apply list_elem_of_In | set_solver]. }
  rewrite EK in Hd. pose proof (dseg_set_last _ _ _ _ _ (hd c K) _ Hd HpM Hp) as Hd'.
  rewrite <- EK in Hd'. clear Hd.
  destruct K as [|q K']; [congruence|]. simpl hd in *.
  assert (HqK : ~ In q K').
  { apply NoDup_cons in HndK as [HqK _]. by rewrite <- list_elem_of_In. }
  pose proof (dseg_set_first _ _ p _ _ _ _ Hd' HqK Hq) as Hd.
  unfold anillo. rewrite (last_default (q :: K') q c) by discriminate. rewrite Ep.
  exact Hd.
Qed.

Lemma NoDup_rot (A B : list loc) c :
  NoDup (A ++ c :: B) -> NoDup (c :: B ++ A).
Proof. intros H. by rewrite (Permutation_app_comm A (c :: B)) in H. Qed.

Lemma eliminar_spec s (L : list loc) :
  repr s L -> L <> [] ->
  exists c nc A B,
    actual s = Some c /\ heap s !! c = Some nc /\ L = A ++ c :: B /\
    exists s',
      eliminar_cancion_actual s = Some (s', Some c) /\
      repr s' (A ++ B) /\
      tamanio s' = tamanio s - 1 /\
      heap s' !! c = heap s !! c /\
      libre s' = libre s /\
      (tamanio s = 1 -> actual s' = None /\ primero s' = None) /\
      (tamanio s <> 1 ->
         (In (anterior nc) (A ++ B) /\ In (siguiente nc) (A ++ B)) /\
         actual s' = Some (siguiente nc) /\
         primero s' = (if decide (Some c = primero s) then Some (siguiente nc) else primero s) /\
         (exists m, heap s' !! anterior nc = Some m /\ siguiente m = siguiente nc) /\
         (exists m, heap s' !! siguiente nc = Some m /\ anterior m = anterior nc)).
Proof.
  intros Hs HL. pose proof Hs as [(Hnd & Ht & Hp & Hr) Ha Hl].
  destruct (actual s) as [c|] eqn:Ec; [|congruence].
  destruct (repr_en_heap _ _ _ Hs Ha) as (nc & Hc).
  apply in_split in Ha as (A & B & EL).
  exists c, nc, A, B. split; [reflexivity|]. split; [exact Hc|]. split; [exact EL|].
  unfold eliminar_cancion_actual. repeat paso_m. rewrite Ht.
  replace (Nat.eqb (length L) 0) with false
    by (symmetry; apply Nat.eqb_neq; destruct L; simpl; congruence).
  repeat paso_m. rewrite Ht, Ec.
  destruct (Nat.eqb (length L) 1) eqn:E1.
  - (* a single node *)
    apply Nat.eqb_eq in E1. rewrite EL, length_app in E1. simpl in E1.
    destruct A; [|simpl in E1; lia]. destruct B; [|simpl in E1; lia].
    repeat paso_m. eexists. split; [reflexivity|].
    unfold with_tamanio, with_primero, with_actual. cbn [heap actual primero tamanio libre].
    split; [|split; [lia|split; [reflexivity|split; [reflexivity|split]]]].
    + constructor; cbn [heap actual primero tamanio libre app]; [|reflexivity|exact Hl].
      unfold anillo_inv. cbn [heap actual primero tamanio libre].
      split; [constructor|]. split; [rewrite Ht, EL; reflexivity|]. split; reflexivity.
    + intros _. auto.
    + intros H. exfalso. apply H. rewrite EL. reflexivity.
  - (* at least two nodes *)
    apply Nat.eqb_neq in E1.
    rewrite EL in Hr, Hnd. apply anillo_al_frente in Hr. apply NoDup_rot in Hnd.
    assert (HK : B ++ A <> []).
    { intros E. apply E1. rewrite EL, length_app. simpl.
      apply app_eq_nil in E as [-> ->]. reflexivity. }
    pose proof Hr as Hf. apply anillo_frente in Hf as (nc' & Hc' & Han & Hsg & _).
    rewrite Hc in Hc'. injection Hc' as <-.
    set (K := B ++ A) in *.
    assert (HcK : ~ In c K).
    { apply NoDup_cons in Hnd as [H _]. by rewrite <- list_elem_of_In. }
    assert (HpK : In (anterior nc) K) by (rewrite Han; apply last_en; exact HK).
    assert (HqK : In (siguiente nc) K) by (rewrite Hsg; destruct K; [congruence|left; reflexivity]).
    assert (Hpc : anterior nc <> c) by (intros E; rewrite E in HpK; contradiction).
    assert (Hqc : siguiente nc <> c) by (intros E; rewrite E in HqK; contradiction).
    assert (HinL : forall y, In y K -> In y L).
    { intros y Hy. rewrite EL. apply in_or_app. unfold K in Hy.
      apply in_app_or in Hy as [Hy|Hy]; [right; right | left]; exact Hy. }
    destruct (repr_en_heap _ _ _ Hs (HinL _ HpK)) as (np & Hnp).
    destruct (repr_en_heap _ _ _ Hs (HinL _ HqK)) as (nq0 & Hnq0).
    assert (HAB : forall y, In y K -> In y (A ++ B)).
    { intros y Hy. unfold K in Hy. apply in_or_app.
      apply in_app_or in Hy as [Hy|Hy]; [right | left]; exact Hy. }
    assert (Hprim1 : Some c = primero s -> Some (siguiente nc) = hd_error (A ++ B)).
    { intros E. rewrite Hp, EL in E. destruct A as [|a A'].
      - rewrite Hsg. unfold K. rewrite app_nil_r in *.
        destruct B; [contradiction|reflexivity].
      - simpl in E. injection E as ->. exfalso. apply HcK.
        unfold K. apply in_or_app. right. left. reflexivity. }
    assert (Hprim2 : Some c <> primero s -> primero s = hd_error (A ++ B)).
    { intros E. rewrite Hp, EL in *. destruct A as [|a A']; [contradiction|reflexivity]. }
    repeat paso_m. rewrite Ec.
    destruct (decide (Some c = primero s)) as [Epc|Epc]; [rewrite <- Epc|].
    all: repeat (paso_m || rewrite_lookup || rewrite Ec || rewrite lookup_insert_ne by congruence).
    all: caso_lookup Eq; [|exfalso;
      destruct (decide (anterior nc = siguiente nc)) as [E|E];
      [rewrite E, lookup_insert_eq in Eq | rewrite lookup_insert_ne, Hnq0 in Eq by congruence];
      discriminate].
    all: repeat (paso_m || rewrite_lookup || rewrite Ec || rewrite lookup_insert_ne by congruence).
    all: eexists; split; [reflexivity|].
    all: unfold with_tamanio, with_actual, with_heap, with_primero;
      cbn [heap actual primero tamanio libre].
    all: pose proof (anillo_quitar (heap s) c K np n Hr Hnd HK) as Hq;
      rewrite <- Han, <- Hsg in Hq; specialize (Hq Hnp Eq).
    all: split; [constructor; unfold anillo_inv; cbn [heap actual primero tamanio libre]|].
    all: try (split; [apply NoDup_cons in Hnd as [_ HndK];
                      by rewrite (Permutation_app_comm A B) |]).
    all: try (split; [rewrite ?Ht, EL, !length_app; simpl; lia|]).
    all: try (split; [first [exact (Hprim1 Epc) | exact (Hprim2 Epc)] | apply anillo_rot; exact Hq]).
    all: try (apply HAB; exact HqK).
    all: try (intros k Hk;
      assert (Hpk : anterior nc <> k) by (apply (repr_ne_libre _ _ _ _ Hs (HinL _ HpK)); lia);
      assert (Hqk : siguiente nc <> k) by (apply (repr_ne_libre _ _ _ _ Hs (HinL _ HqK)); lia);
      rewrite !lookup_insert_ne by congruence; apply Hl; lia).
    all: split; [rewrite !lookup_insert_ne by congruence; exact Hc|].
    all: split; [reflexivity|].
    all: split; [intros E; contradiction|].
    all: intros _; split; [split; apply HAB; assumption|].
    all: split; [reflexivity|]; split; [try reflexivity|].
    all: split; [|exists (set_anterior_nodo n (anterior nc));
                 split; [apply lookup_insert_eq | reflexivity]].
    all: destruct (decide (anterior nc = siguiente nc)) as [E|E].
    all: try (rewrite E, lookup_insert_eq in Eq; injection Eq as <-;
              rewrite E, lookup_insert_eq; eexists; split; reflexivity).
    all: rewrite lookup_insert_ne, lookup_insert_eq by congruence; eexists; split; reflexivity.
Qed.

Lemma anillo_vecinos_en h (L : list loc) x n :
  anillo h L -> In x L -> h !! x = Some n -> In (siguiente n) L /\ In (anterior n) L.
Proof.
  intros Hr Hx Hn. apply in_split in Hx as (A & B & EL). subst L.
  apply anillo_al_frente, anillo_frente in Hr as (n' & Hn' & Ha & Hs & _).
  rewrite Hn in Hn'. injection Hn' as <-.
  assert (Hsub : forall y, In y (x :: B ++ A) -> In y (A ++ x :: B)).
  { intros y [<-|Hy]; apply in_or_app; [right; left; reflexivity|].
    apply in_app_or in Hy as [Hy|Hy]; [right; right | left]; exact Hy. }
  split; apply Hsub.
  - rewrite Hs. destruct (B ++ A); [left; reflexivity | right; left; reflexivity].
  - rewrite Ha, <- last_cons with (d := x). apply last_en. discriminate.
Qed.

Lemma siguiente_vacia s : tamanio s = 0 -> siguiente_cancion s = Some (s, None).
Proof. intros Ht. unfold siguiente_cancion. repeat paso_m. rewrite Ht. reflexivity. Qed.

Lemma anterior_vacia s : tamanio s = 0 -> cancion_anterior s = Some (s, None).
Proof. intros Ht. unfold cancion_anterior. repeat paso_m. rewrite Ht. reflexivity. Qed.

Lemma eliminar_vacia s : tamanio s = 0 -> eliminar_cancion_actual s = Some (s, None).
Proof. intros Ht. unfold eliminar_cancion_actual. repeat paso_m. rewrite Ht. reflexivity. Qed.

Lemma todas_vacia fuel s : tamanio s = 0 -> obtener_todas_las_canciones fuel s = Some (s, []).
Proof. intros Ht. unfold obtener_todas_las_canciones. repeat paso_m. rewrite Ht. reflexivity. Qed.

Lemma siguiente_spec s (L : list loc) :
  repr s L -> L <> [] ->
  exists c nc, actual s = Some c /\ heap s !! c = Some nc /\
    siguiente_cancion s = Some (with_actual s (Some (siguiente nc)), Some (siguiente nc)) /\
    repr (with_actual s (Some (siguiente nc))) L.
Proof.
  intros Hs HL. pose proof Hs as [(Hnd & Ht & Hp & Hr) Ha Hl].
  destruct (actual s) as [c|] eqn:Ec; [|congruence].
  destruct (repr_en_heap _ _ _ Hs Ha) as (nc & Hc).
  exists c, nc. split; [reflexivity|]. split; [exact Hc|]. split.
  - unfold siguiente_cancion. repeat paso_m. rewrite Ht.
    replace (Nat.eqb (length L) 0) with false
      by (symmetry; apply Nat.eqb_neq; destruct L; simpl; congruence).
    repeat (paso_m || rewrite Ec || rewrite_lookup). reflexivity.
  - constructor; [exact (repr_inv _ _ Hs)| |exact Hl]. cbn.
    exact (proj1 (anillo_vecinos_en _ _ _ _ Hr Ha Hc)).
Qed.

Lemma anterior_spec s (L : list loc) :
  repr s L -> L <> [] ->
  exists c nc, actual s = Some c /\ heap s !! c = Some nc /\
    cancion_anterior s = Some (with_actual s (Some (anterior nc)), Some (anterior nc)) /\
    repr (with_actual s (Some (anterior nc))) L.
Proof.
  intros Hs HL. pose proof Hs as [(Hnd & Ht & Hp & Hr) Ha Hl].
  destruct (actual s) as [c|] eqn:Ec; [|congruence].
  destruct (repr_en_heap _ _ _ Hs Ha) as (nc & Hc).
  exists c, nc. split; [reflexivity|]. split; [exact Hc|]. split.
  - unfold cancion_anterior. repeat paso_m. rewrite Ht.
    replace (Nat.eqb (length L) 0) with false
      by (symmetry; apply Nat.eqb_neq; destruct L; simpl; congruence).
    repeat (paso_m || rewrite Ec || rewrite_lookup). reflexivity.
  - constructor; [exact (repr_inv _ _ Hs)| |exact Hl]. cbn.
    exact (proj2 (anillo_vecinos_en _ _ _ _ Hr Ha Hc)).
Qed.

(** The loop of [obtener_todas_las_canciones] walks the rest [M] of the
    ring and stops on reaching [primero] again. *)
Lemma recorrer_dseg fuel s p x (M acc : list loc) :
  dseg (heap s) p M x -> primero s = Some x -> ~ In x M -> length M < fuel ->
  recorrer fuel (hd x M) acc s = Some (s, acc ++ M).
Proof.
  revert fuel p acc. induction M as [|y M IH]; intros fuel p acc Hd Hp Hx Hf;
    (destruct fuel as [|fuel]; [simpl in Hf; lia|]); cbn [recorrer]; repeat paso_m; rewrite Hp.
  - rewrite decide_False by (intros H; apply H; reflexivity).
    rewrite app_nil_r. reflexivity.
  - cbn [hd]. rewrite decide_True by (intros H; injection H as ->; apply Hx; left; reflexivity).
    simpl in Hd. destruct (heap s !! y) as [ny|] eqn:Ey; [|contradiction].
    destruct Hd as (_ & Hs & Hd). repeat (paso_m || rewrite_lookup).
    rewrite Hs, (IH fuel y (acc ++ [y])).
    + rewrite <- app_assoc. reflexivity.
    + exact Hd.
    + exact Hp.
    + intros H. apply Hx. right. exact H.
    + simpl in Hf. lia.
Qed.

Lemma todas_spec fuel s (L : list loc) :
  anillo_inv s L -> tamanio s <= fuel ->
  obtener_todas_las_canciones fuel s = Some (s, L).
Proof.
  intros (Hnd & Ht & Hp & Hr) Hf. destruct L as [|x M].
  - apply todas_vacia. exact Ht.
  - unfold obtener_todas_las_canciones. repeat paso_m. rewrite Ht. cbn [length Nat.eqb].
    apply anillo_frente in Hr as (nx & Hx & _ & Hs & Hd). cbn [hd_error] in Hp.
    repeat (paso_m || rewrite Hp || rewrite_lookup). rewrite Hs.
    apply (recorrer_dseg fuel s x x M [x] Hd Hp).
    + apply NoDup_cons in Hnd as [H _]. by rewrite <- list_elem_of_In.
    + rewrite Ht in Hf. simpl in Hf. lia.
Qed.

(** ** The representation invariant holds in every reachable state *)

Lemma repr_vacia : repr lista_vacia [].
Proof.
  constructor; cbn.
  - split; [constructor|]. split; [reflexivity|]. split; reflexivity.
  - reflexivity.
  - intros k _. apply lookup_empty.
Qed.

Lemma recorrer_lectura fuel nodo (acc : list loc) s s' l :
  recorrer fuel nodo acc s = Some (s', l) -> s' = s.
Proof.
  revert nodo acc. induction fuel as [|fuel IH]; intros nodo acc; [discriminate|].
  cbn [recorrer]. repeat paso_m.
  destruct (decide (Some nodo <> primero s)).
  - repeat paso_m. destruct (heap s !! nodo); [apply IH | discriminate].
  - intros H. injection H as <- _. reflexivity.
Qed.

Lemma todas_lectura fuel s s' l :
  obtener_todas_las_canciones fuel s = Some (s', l) -> s' = s.
Proof.
  unfold obtener_todas_las_canciones. repeat paso_m.
  destruct (Nat.eqb (tamanio s) 0).
  - intros H. injection H as <- _. reflexivity.
  - repeat paso_m. destruct (primero s) as [p|]; [|discriminate].
    repeat paso_m. destruct (heap s !! p); [apply recorrer_lectura | discriminate].
Qed.

Lemma repr_no_vacia s (L : list loc) : repr s L -> L <> [] -> tamanio s <> 0.
Proof. intros [(_ & Ht & _) _ _] HL. rewrite Ht. destruct L; [congruence|discriminate]. Qed.

Lemma repr_vacia_tam s : repr s [] -> tamanio s = 0.
Proof. intros [(_ & Ht & _) _ _]. exact Ht. Qed.

Lemma paso_repr s s' (L : list loc) :
  repr s L -> paso s s' -> exists L', repr s' L'.
Proof.
  intros Hs Hp. destruct Hp as [s s' t a d r x H|s s' x H|s s' x H|s s' x H|s s' x H
                               |s s' x H|fuel s s' x H].
  - destruct (agregar_spec t a d r s L Hs) as (s'' & E & Hs'' & _).
    rewrite E in H. injection H as <- _. eauto.
  - destruct L as [|y M].
    + rewrite eliminar_vacia in H by (apply repr_vacia_tam; exact Hs).
      injection H as <- _. eauto.
    + destruct (eliminar_spec s (y :: M) Hs ltac:(discriminate))
        as (c & nc & A & B & _ & _ & _ & s'' & E & Hs'' & _).
      rewrite E in H. injection H as <- _. eauto.
  - destruct L as [|y M].
    + rewrite siguiente_vacia in H by (apply repr_vacia_tam; exact Hs).
      injection H as <- _. eauto.
    + destruct (siguiente_spec s (y :: M) Hs ltac:(discriminate)) as (c & nc & _ & _ & E & Hs').
      rewrite E in H. injection H as <- _. eauto.
  - destruct L as [|y M].
    + rewrite anterior_vacia in H by (apply repr_vacia_tam; exact Hs).
      injection H as <- _. eauto.
    + destruct (anterior_spec s (y :: M) Hs ltac:(discriminate)) as (c & nc & _ & _ & E & Hs').
      rewrite E in H. injection H as <- _. eauto.
  - injection H as <- _. eauto.
  - injection H as <- _. eauto.
  - apply todas_lectura in H. subst s'. eauto.
Qed.

Lemma alcanzable_repr s : alcanzable s -> exists L, repr s L.
Proof.
  induction 1 as [|s s' _ [L HL] Hp].
  - exists []. exact repr_vacia.
  - eapply paso_repr; eauto.
Qed.

Lemma with_actual_eta s a : actual s = a -> with_actual s a = s.
Proof. destruct s. cbn. intros ->. reflexivity. Qed.

Lemma agregar_varias_spec (ts : list (string * string * Z * string)) s (L : list loc) :
  repr s L ->
  exists s' ls, agregar_varias ts s = Some (s', ls) /\ repr s' (L ++ ls) /\
                length ls = length ts.
Proof.
  revert s L. induction ts as [|[[[t a] d] r] ts IH]; intros s L Hs.
  - exists s, []. rewrite app_nil_r. auto.
  - destruct (agregar_spec t a d r s L Hs) as (s1 & E1 & Hs1 & _).
    destruct (IH s1 _ Hs1) as (s2 & ls & E2 & Hs2 & Hlen).
    exists s2, (libre s :: ls). cbn [agregar_varias].
    unfold bind. rewrite E1. cbv beta iota. rewrite E2.
    rewrite <- app_assoc in Hs2. simpl. auto.
Qed.

Lemma repetir_siguiente k s (L : list loc) c :
  repr s L -> actual s = Some c ->
  exists c', iter_siguiente (heap s) k c = Some c' /\
             repetir k siguiente_cancion s = Some (with_actual s (Some c'), tt).
Proof.
  revert s c. induction k as [|k IH]; intros s c Hs Hc.
  - exists c. rewrite with_actual_eta by exact Hc. split; reflexivity.
  - assert (HL : L <> []) by (intros ->; pose proof (repr_actual _ _ Hs) as H; rewrite Hc in H; exact H).
    destruct (siguiente_spec s L Hs HL) as (c0 & nc & Hc0 & Hnc & E & Hs1).
    rewrite Hc in Hc0. injection Hc0 as <-.
    destruct (IH _ _ Hs1 eq_refl) as (c' & Hi & Er).
    exists c'. cbn [iter_siguiente repetir]. rewrite Hnc. split; [exact Hi|].
    unfold bind. rewrite E, Er. reflexivity.
Qed.

Lemma repetir_anterior k s (L : list loc) c :
  repr s L -> actual s = Some c ->
  exists c', iter_anterior (heap s) k c = Some c' /\
             repetir k cancion_anterior s = Some (with_actual s (Some c'), tt).
Proof.
  revert s c. induction k as [|k IH]; intros s c Hs Hc.
  - exists c. rewrite with_actual_eta by exact Hc. split; reflexivity.
  - assert (HL : L <> []) by (intros ->; pose proof (repr_actual _ _ Hs) as H; rewrite Hc in H; exact H).
    destruct (anterior_spec s L Hs HL) as (c0 & nc & Hc0 & Hnc & E & Hs1).
    rewrite Hc in Hc0. injection Hc0 as <-.
    destruct (IH _ _ Hs1 eq_refl) as (c' & Hi & Er).
    exists c'. cbn [iter_anterior repetir]. rewrite Hnc. split; [exact Hi|].
    unfold bind. rewrite E, Er. reflexivity.
Qed.

(** [agregar_cancion] on a non-empty list never reads [actual]. *)
Lemma agregar_con_actual t a d r s c :
  tamanio s <> 0 ->
  agregar_cancion t a d r (with_actual s c) =
  match agregar_cancion t a d r s with
  | Some (s', x) => Some (with_actual s' c, x)
  | None => None
  end.
Proof.
  intros Ht. unfold agregar_cancion. repeat paso_m.
  replace (Nat.eqb (tamanio s) 0) with false by (symmetry; apply Nat.eqb_neq; exact Ht).
  repeat paso_m. destruct (primero s) as [p|]; [|reflexivity].
  repeat paso_m.
  repeat (caso_lookup E; repeat paso_m; try reflexivity).
Qed.

Lemma alcanzable_agregar_varias (ts : list (string * string * Z * string)) s s' ls :
  alcanzable s -> agregar_varias ts s = Some (s', ls) -> alcanzable s'.
Proof.
  revert s ls. induction ts as [|[[[t a] d] r] ts IH]; intros s ls Ha E.
  - injection E as <- _. exact Ha.
  - cbn [agregar_varias] in E. unfold bind in E.
    destruct (agregar_cancion t a d r s) as [[s1 x]|] eqn:E1; [|discriminate].
    destruct (agregar_varias ts s1) as [[s2 xs]|] eqn:E2; [|discriminate].
    injection E as <- _. apply (IH s1 xs); [|exact E2].
    eapply alc_paso; [exact Ha|]. eapply paso_agregar. exact E1.
Qed.

Lemma alcanzable_tras ts : alcanzable (estado_tras ts).
Proof.
  unfold estado_tras.
  destruct (agregar_varias_spec ts lista_vacia [] repr_vacia) as (s & ls & E & _).
  rewrite E. eapply alcanzable_agregar_varias; [exact alc_inicio | exact E].
Qed.

(** * Properties of the playlist *)

Lemma repr_con_actual s (L : list loc) c :
  repr s L -> In c L -> repr (with_actual s (Some c)) L.
Proof.
  intros [Hinv _ Hl] Hc. constructor; [exact Hinv | exact Hc | exact Hl].
Qed.

Lemma vacia_equiv_aux s :
  alcanzable s ->
  (tamanio s = 0 <-> actual s = None) /\ (actual s = None <-> primero s = None).
Proof.
  intros Ha. destruct (alcanzable_repr s Ha) as (L & [(_ & Ht & Hp & _) Hc _]).
  rewrite Ht, Hp. destruct L as [|x M]; simpl.
  - destruct (actual s); [destruct Hc|]. split; split; auto.
  - destruct (actual s); [|discriminate]. split; split; discriminate.
Qed.

(** C1: after [n] calls of [agregar_cancion] on a new playlist, [__len__]
    returns [n] and [obtener_todas_las_canciones] returns exactly the [n]
    nodes the calls created, in the order of the calls. *)
Theorem agregar_n_veces (ts : list (string * string * Z * string)) :
  exists s ls,
    agregar_varias ts lista_vacia = Some (s, ls) /\
    length ls = length ts /\ NoDup ls /\
    longitud s = Some (s, length ts) /\
    forall fuel, length ts <= fuel -> obtener_todas_las_canciones fuel s = Some (s, ls).
Proof.
  destruct (agregar_varias_spec ts lista_vacia [] repr_vacia) as (s & ls & E & Hs & Hlen).
  simpl in Hs. pose proof (repr_inv _ _ Hs) as Hinv.
  destruct Hinv as (Hnd & Ht & Hp & Hr).
  exists s, ls. split; [exact E|]. split; [exact Hlen|]. split; [exact Hnd|]. split.
  - unfold longitud, get_tamanio. rewrite Ht, Hlen. reflexivity.
  - intros fuel Hf. apply todas_spec; [exact (repr_inv _ _ Hs)|]. lia.
Qed.

(** C2: on a reachable non-empty playlist, [eliminar_cancion_actual]
    returns the node [actual] referenced.  With one node the list
    becomes empty ([actual] and [primero] are [None]); otherwise the
    neighbours of the node are linked to each other, [actual] moves to the
    node's [siguiente], [primero] moves there too exactly when the node
    was [primero], and [tamanio] drops by one. *)
Theorem eliminar_actual_efecto s :
  alcanzable s -> tamanio s <> 0 ->
  exists c nc s',
    actual s = Some c /\ heap s !! c = Some nc /\
    eliminar_cancion_actual s = Some (s', Some c) /\
    tamanio s' = tamanio s - 1 /\
    (tamanio s = 1 -> actual s' = None /\ primero s' = None) /\
    (tamanio s <> 1 ->
       (exists m, heap s' !! anterior nc = Some m /\ siguiente m = siguiente nc) /\
       (exists m, heap s' !! siguiente nc = Some m /\ anterior m = anterior nc) /\
       actual s' = Some (siguiente nc) /\
       primero s' = (if decide (Some c = primero s) then Some (siguiente nc) else primero s)).
Proof.
  intros Ha Ht. destruct (alcanzable_repr s Ha) as (L & Hs).
  assert (HL : L <> []) by (intros ->; apply Ht; exact (repr_vacia_tam _ Hs)).
  destruct (eliminar_spec s L Hs HL)
    as (c & nc & A & B & Hc & Hnc & _ & s' & E & _ & Ht' & _ & _ & H1 & H2).
  exists c, nc, s'. split; [exact Hc|]. split; [exact Hnc|]. split; [exact E|].
  split; [exact Ht'|]. split; [exact H1|].
  intros H3. destruct (H2 H3) as (_ & Ha' & Hp' & Hs1 & Hs2). auto.
Qed.

(** C3: in every reachable state, every node of the ring satisfies
    [n.siguiente.anterior == n] and [n.anterior.siguiente == n], and
    following [siguiente] [tamanio] times from it comes back to it. *)
Theorem anillo_invariante s x :
  alcanzable s -> en_anillo s x ->
  (exists n y m, heap s !! x = Some n /\ siguiente n = y /\
                 heap s !! y = Some m /\ anterior m = x) /\
  (exists n y m, heap s !! x = Some n /\ anterior n = y /\
                 heap s !! y = Some m /\ siguiente m = x) /\
  iter_siguiente (heap s) (tamanio s) x = Some x.
Proof.
  intros Ha Hx. destruct (alcanzable_repr s Ha) as (L & Hs).
  pose proof (repr_inv _ _ Hs) as Hinv.
  apply (en_anillo_In _ _ _ Hinv) in Hx.
  destruct Hinv as (_ & Ht & _ & Hr). split; [|split].
  - exact (anillo_siguiente_anterior _ _ _ Hr Hx).
  - exact (anillo_anterior_siguiente _ _ _ Hr Hx).
  - rewrite Ht. exact (anillo_iter_siguiente _ _ _ Hr Hx).
Qed.

(** C4: in every reachable state, [tamanio == 0] iff [actual is None]
    iff [primero is None]. *)
Theorem vacia_equivalencias s :
  alcanzable s ->
  (tamanio s = 0 <-> actual s = None) /\ (actual s = None <-> primero s = None).
Proof. exact (vacia_equiv_aux s). Qed.

(** C5: on an empty reachable playlist, [eliminar_cancion_actual],
    [siguiente_cancion] and [cancion_anterior] return [None],
    [obtener_todas_las_canciones] returns [[]], none of them changes the
    state, and [actual] and [primero] are [None]. *)
Theorem vacia_operaciones s :
  alcanzable s -> tamanio s = 0 ->
  eliminar_cancion_actual s = Some (s, None) /\
  siguiente_cancion s = Some (s, None) /\
  cancion_anterior s = Some (s, None) /\
  (forall fuel, obtener_todas_las_canciones fuel s = Some (s, [])) /\
  actual s = None /\ primero s = None.
Proof.
  intros Ha Ht. destruct (vacia_equiv_aux s Ha) as [H1 H2].
  split; [exact (eliminar_vacia s Ht)|]. split; [exact (siguiente_vacia s Ht)|].
  split; [exact (anterior_vacia s Ht)|]. split; [intros fuel; exact (todas_vacia fuel s Ht)|].
  apply H1 in Ht. split; [exact Ht | apply H2; exact Ht].
Qed.

(** C6: on a reachable playlist, [agregar_cancion] leaves [actual] as it
    is when the list is not empty, and its result is then the same
    whatever [actual] references; on an empty list the new node becomes
    [actual] and [primero]. *)
Theorem agregar_no_mueve_actual t a d r s :
  alcanzable s ->
  exists s' z,
    agregar_cancion t a d r s = Some (s', z) /\
    (tamanio s <> 0 ->
       actual s' = actual s /\
       forall c, agregar_cancion t a d r (with_actual s c) = Some (with_actual s' c, z)) /\
    (tamanio s = 0 -> actual s' = Some z /\ primero s' = Some z).
Proof.
  intros Ha. destruct (alcanzable_repr s Ha) as (L & Hs).
  destruct (agregar_spec t a d r s L Hs) as (s' & E & Hs' & Hact & Hprim & _).
  exists s', (libre s). split; [exact E|]. split.
  - intros Ht. split.
    + rewrite Hact. destruct L; [apply repr_vacia_tam in Hs; contradiction | reflexivity].
    + intros c. rewrite (agregar_con_actual t a d r s c Ht), E. reflexivity.
  - intros Ht. destruct L as [|x M].
    + split; [exact Hact | exact Hprim].
    + exfalso. exact (repr_no_vacia s _ Hs ltac:(discriminate) Ht).
Qed.

(** C7: on a reachable non-empty playlist, [siguiente_cancion] followed by
    [cancion_anterior], and [cancion_anterior] followed by
    [siguiente_cancion], give back the initial state, [actual] included. *)
Theorem siguiente_anterior_inversas s :
  alcanzable s -> tamanio s <> 0 ->
  (exists s1 r1, siguiente_cancion s = Some (s1, r1) /\
                 cancion_anterior s1 = Some (s, actual s)) /\
  (exists s2 r2, cancion_anterior s = Some (s2, r2) /\
                 siguiente_cancion s2 = Some (s, actual s)).
Proof.
  intros Ha Ht. destruct (alcanzable_repr s Ha) as (L & Hs).
  assert (HL : L <> []) by (intros ->; apply Ht; exact (repr_vacia_tam _ Hs)).
  pose proof (repr_inv _ _ Hs) as (_ & _ & _ & Hr).
  split.
  - destruct (siguiente_spec s L Hs HL) as (c & nc & Hc & Hnc & E & Hs1).
    exists (with_actual s (Some (siguiente nc))), (Some (siguiente nc)). split; [exact E|].
    destruct (anterior_spec _ L Hs1 HL) as (c1 & nc1 & Hc1 & Hnc1 & E1 & _).
    cbn in Hc1, Hnc1. injection Hc1 as <-.
    assert (Hin : In c L).
    { pose proof (repr_actual _ _ Hs) as H. rewrite Hc in H. exact H. }
    destruct (anillo_siguiente_anterior _ _ _ Hr Hin) as (n & y & m & Hn & Hy & Hm & Hmc).
    rewrite Hnc in Hn. injection Hn as <-. subst y. rewrite Hnc1 in Hm. injection Hm as <-.
    rewrite E1, Hmc, Hc.
    change (with_actual (with_actual s (Some (siguiente nc))) (Some c)) with (with_actual s (Some c)).
    rewrite with_actual_eta by exact Hc. reflexivity.
  - destruct (anterior_spec s L Hs HL) as (c & nc & Hc & Hnc & E & Hs1).
    exists (with_actual s (Some (anterior nc))), (Some (anterior nc)). split; [exact E|].
    destruct (siguiente_spec _ L Hs1 HL) as (c1 & nc1 & Hc1 & Hnc1 & E1 & _).
    cbn in Hc1, Hnc1. injection Hc1 as <-.
    assert (Hin : In c L).
    { pose proof (repr_actual _ _ Hs) as H. rewrite Hc in H. exact H. }
    destruct (anillo_anterior_siguiente _ _ _ Hr Hin) as (n & y & m & Hn & Hy & Hm & Hmc).
    rewrite Hnc in Hn. injection Hn as <-. subst y. rewrite Hnc1 in Hm. injection Hm as <-.
    rewrite E1, Hmc, Hc.
    change (with_actual (with_actual s (Some (anterior nc))) (Some c)) with (with_actual s (Some c)).
    rewrite with_actual_eta by exact Hc. reflexivity.
Qed.

(** C8: on a reachable non-empty playlist, whatever ring node [actual]
    references, calling [siguiente_cancion] exactly [tamanio] times brings
    [actual] back to that node, and so does calling [cancion_anterior]
    exactly [tamanio] times. *)
Theorem vuelta_completa s c :
  alcanzable s -> en_anillo s c ->
  (exists s', repetir (tamanio s) siguiente_cancion (with_actual s (Some c)) = Some (s', tt) /\
              actual s' = Some c) /\
  (exists s', repetir (tamanio s) cancion_anterior (with_actual s (Some c)) = Some (s', tt) /\
              actual s' = Some c).
Proof.
  intros Ha Hc. destruct (alcanzable_repr s Ha) as (L & Hs).
  pose proof (repr_inv _ _ Hs) as Hinv.
  pose proof Hinv as (_ & HtL & _ & Hr).
  apply (en_anillo_In _ _ _ Hinv) in Hc.
  pose proof (repr_con_actual s L c Hs Hc) as Hs1.
  change (tamanio s) with (tamanio (with_actual s (Some c))).
  split.
  - destruct (repetir_siguiente (tamanio (with_actual s (Some c))) _ L c Hs1 eq_refl) as (c' & Hi & E).
    cbn [tamanio heap with_actual] in Hi.
    rewrite HtL, (anillo_iter_siguiente _ _ _ Hr Hc) in Hi. injection Hi as <-.
    eexists. split; [exact E | reflexivity].
  - destruct (repetir_anterior (tamanio (with_actual s (Some c))) _ L c Hs1 eq_refl) as (c' & Hi & E).
    cbn [tamanio heap with_actual] in Hi.
    rewrite HtL, (anillo_iter_anterior _ _ _ Hr Hc) in Hi. injection Hi as <-.
    eexists. split; [exact E | reflexivity].
Qed.

(** C9: on a state satisfying the ring invariant,
    [obtener_todas_las_canciones] terminates (within [tamanio] tests of
    the loop condition) and returns the [tamanio] ring nodes from
    [primero] on.  No hypothesis is made on the track data of the nodes:
    the loop compares object references. *)
Theorem todas_termina s (L : list loc) fuel :
  anillo_inv s L -> tamanio s <= fuel ->
  obtener_todas_las_canciones fuel s = Some (s, L) /\
  length L = tamanio s /\ hd_error L = primero s /\ NoDup L.
Proof.
  intros Hinv Hf. pose proof Hinv as (Hnd & Ht & Hp & _).
  split; [exact (todas_spec fuel s L Hinv Hf)|]. auto.
Qed.

(** C10: [eliminar_cancion_actual] on a reachable non-empty playlist does
    not modify the removed node object; when the list had more than one
    node, the removed node's [siguiente] and [anterior] still reference
    its former neighbours, which are in the remaining ring. *)
Theorem eliminar_no_modifica_nodo s :
  alcanzable s -> tamanio s <> 0 ->
  exists r s',
    eliminar_cancion_actual s = Some (s', Some r) /\
    heap s' !! r = heap s !! r /\
    (tamanio s <> 1 ->
       exists n, heap s' !! r = Some n /\
                 en_anillo s' (siguiente n) /\ en_anillo s' (anterior n)).
Proof.
  intros Ha Ht. destruct (alcanzable_repr s Ha) as (L & Hs).
  assert (HL : L <> []) by (intros ->; apply Ht; exact (repr_vacia_tam _ Hs)).
  destruct (eliminar_spec s L Hs HL)
    as (c & nc & A & B & _ & Hnc & _ & s' & E & Hs' & _ & Hh & _ & _ & H2).
  exists c, s'. split; [exact E|]. split; [exact Hh|].
  intros H1. destruct (H2 H1) as ([Hp Hq] & _).
  exists nc. rewrite Hh. split; [exact Hnc|].
  pose proof (repr_inv _ _ Hs') as Hinv.
  split; apply (en_anillo_In _ _ _ Hinv); assumption.
Qed.

(** * Instances of the properties on concrete playlists *)

Lemma eliminar_actual_efecto_witness :
  alcanzable lista_tres /\ tamanio lista_tres <> 0 /\
  exists c nc s',
    actual lista_tres = Some c /\ heap lista_tres !! c = Some nc /\
    eliminar_cancion_actual lista_tres = Some (s', Some c) /\
    tamanio s' = tamanio lista_tres - 1 /\
    (tamanio lista_tres = 1 -> actual s' = None /\ primero s' = None) /\
    (tamanio lista_tres <> 1 ->
       (exists m, heap s' !! anterior nc = Some m /\ siguiente m = siguiente nc) /\
       (exists m, heap s' !! siguiente nc = Some m /\ anterior m = anterior nc) /\
       actual s' = Some (siguiente nc) /\
       primero s' = (if decide (Some c = primero lista_tres) then Some (siguiente nc)
                     else primero lista_tres)).
Proof.
  split; [exact (alcanzable_tras tres_canciones)|].
  split; [vm_compute; discriminate|].
  apply (eliminar_actual_efecto lista_tres);
    [exact (alcanzable_tras tres_canciones) | vm_compute; discriminate].
Defined.

Lemma anillo_invariante_witness :
  alcanzable lista_tres /\ en_anillo lista_tres 1 /\
  (exists n y m, heap lista_tres !! 1 = Some n /\ siguiente n = y /\
                 heap lista_tres !! y = Some m /\ anterior m = 1) /\
  (exists n y m, heap lista_tres !! 1 = Some n /\ anterior n = y /\
                 heap lista_tres !! y = Some m /\ siguiente m = 1) /\
  iter_siguiente (heap lista_tres) (tamanio lista_tres) 1 = Some 1.
Proof.
  assert (Hx : en_anillo lista_tres 1).
  { exists 0, 1. split; [vm_compute; reflexivity|].
    split; [vm_compute; lia | vm_compute; reflexivity]. }
  split; [exact (alcanzable_tras tres_canciones)|]. split; [exact Hx|].
  apply (anillo_invariante lista_tres 1); [exact (alcanzable_tras tres_canciones) | exact Hx].
Defined.

Lemma vacia_equivalencias_witness :
  alcanzable lista_tres /\
  (tamanio lista_tres = 0 <-> actual lista_tres = None) /\
  (actual lista_tres = None <-> primero lista_tres = None).
Proof.
  split; [exact (alcanzable_tras tres_canciones)|].
  apply (vacia_equivalencias lista_tres). exact (alcanzable_tras tres_canciones).
Defined.

Lemma vacia_operaciones_witness :
  alcanzable lista_vacia /\ tamanio lista_vacia = 0 /\
  eliminar_cancion_actual lista_vacia = Some (lista_vacia, None) /\
  siguiente_cancion lista_vacia = Some (lista_vacia, None) /\
  cancion_anterior lista_vacia = Some (lista_vacia, None) /\
  (forall fuel, obtener_todas_las_canciones fuel lista_vacia = Some (lista_vacia, [])) /\
  actual lista_vacia = None /\ primero lista_vacia = None.
Proof.
  split; [exact alc_inicio|]. split; [reflexivity|].
  apply (vacia_operaciones lista_vacia); [exact alc_inicio | reflexivity].
Defined.

Lemma agregar_no_mueve_actual_witness :
  alcanzable lista_tres /\
  exists s' z,
    agregar_cancion "D"%string "Artista"%string 90%Z "d.mp3"%string lista_tres = Some (s', z) /\
    (tamanio lista_tres <> 0 ->
       actual s' = actual lista_tres /\
       forall c, agregar_cancion "D"%string "Artista"%string 90%Z "d.mp3"%string
                   (with_actual lista_tres c) = Some (with_actual s' c, z)) /\
    (tamanio lista_tres = 0 -> actual s' = Some z /\ primero s' = Some z).
Proof.
  split; [exact (alcanzable_tras tres_canciones)|].
  apply (agregar_no_mueve_actual "D"%string "Artista"%string 90%Z "d.mp3"%string lista_tres).
  exact (alcanzable_tras tres_canciones).
Defined.

Lemma siguiente_anterior_inversas_witness :
  alcanzable lista_tres /\ tamanio lista_tres <> 0 /\
  (exists s1 r1, siguiente_cancion lista_tres = Some (s1, r1) /\
                 cancion_anterior s1 = Some (lista_tres, actual lista_tres)) /\
  (exists s2 r2, cancion_anterior lista_tres = Some (s2, r2) /\
                 siguiente_cancion s2 = Some (lista_tres, actual lista_tres)).
Proof.
  split; [exact (alcanzable_tras tres_canciones)|].
  split; [vm_compute; discriminate|].
  apply (siguiente_anterior_inversas lista_tres);
    [exact (alcanzable_tras tres_canciones) | vm_compute; discriminate].
Defined.

Lemma vuelta_completa_witness :
  alcanzable lista_tres /\ en_anillo lista_tres 2 /\
  (exists s', repetir (tamanio lista_tres) siguiente_cancion (with_actual lista_tres (Some 2)) =
              Some (s', tt) /\ actual s' = Some 2) /\
  (exists s', repetir (tamanio lista_tres) cancion_anterior (with_actual lista_tres (Some 2)) =
              Some (s', tt) /\ actual s' = Some 2).
Proof.
  assert (Hx : en_anillo lista_tres 2).
  { exists 0, 2. split; [vm_compute; reflexivity|].
    split; [vm_compute; lia | vm_compute; reflexivity]. }
  split; [exact (alcanzable_tras tres_canciones)|]. split; [exact Hx|].
  apply (vuelta_completa lista_tres 2); [exact (alcanzable_tras tres_canciones) | exact Hx].
Defined.

Lemma todas_termina_witness :
  anillo_inv dos_iguales [0; 1] /\ tamanio dos_iguales <= 2 /\
  obtener_todas_las_canciones 2 dos_iguales = Some (dos_iguales, [0; 1]) /\
  length [0; 1] = tamanio dos_iguales /\ hd_error [0; 1] = primero dos_iguales /\
  NoDup [0; 1].
Proof.
  assert (Hinv : anillo_inv dos_iguales [0; 1]).
  { split; [repeat constructor; set_solver|].
    split; [reflexivity|]. split; [reflexivity|].
    vm_compute. repeat split. }
  split; [exact Hinv|]. split; [vm_compute; lia|].
  apply (todas_termina dos_iguales [0; 1] 2); [exact Hinv | vm_compute; lia].
Defined.

Lemma eliminar_no_modifica_nodo_witness :
  alcanzable lista_tres /\ tamanio lista_tres <> 0 /\
  exists r s',
    eliminar_cancion_actual lista_tres = Some (s', Some r) /\
    heap s' !! r = heap lista_tres !! r /\
    (tamanio lista_tres <> 1 ->
       exists n, heap s' !! r = Some n /\
                 en_anillo s' (siguiente n) /\ en_anillo s' (anterior n)).
Proof.
  split; [exact (alcanzable_tras tres_canciones)|].
  split; [vm_compute; discriminate|].
  apply (eliminar_no_modifica_nodo lista_tres);
    [exact (alcanzable_tras tres_canciones) | vm_compute; discriminate].
Defined.

(** * The duration text of [__str__] and of the playlist table *)

Lemma la_app (a b : string) :
  list_ascii_of_string (a ++ b) = list_ascii_of_string a ++ list_ascii_of_string b.
Proof. induction a as [|ch a IH]; simpl; [reflexivity | rewrite IH; reflexivity]. Qed.

Lemma la_inj (a b : string) : list_ascii_of_string a = list_ascii_of_string b -> a = b.
Proof.
  intros E. rewrite <- (string_of_list_ascii_of_string a), <- (string_of_list_ascii_of_string b).
  rewrite E. reflexivity.
Qed.

Lemma to_int_no_nil z :
  Z.to_int z <> Decimal.Pos Decimal.Nil /\ Z.to_int z <> Decimal.Neg Decimal.Nil.
Proof.
  destruct z as [|p|p]; simpl; split; try discriminate;
    intros E; injection E; apply Unsigned.to_uint_nonnil.
Qed.

Lemma str_Z_inj a b : str_Z a = str_Z b -> a = b.
Proof.
  intros E. unfold str_Z in E. apply (f_equal NilZero.int_of_string) in E.
  destruct (to_int_no_nil a) as [Ha1 Ha2]. destruct (to_int_no_nil b) as [Hb1 Hb2].
  rewrite !NilZero.isi in E by assumption. injection E as E.
  exact (to_int_inj a b E).
Qed.

Lemma uint_sin_dos_puntos (u : Decimal.uint) :
  ~ In ":"%char (list_ascii_of_string (NilEmpty.string_of_uint u)).
Proof. induction u; simpl; intuition discriminate. Qed.

Lemma str_Z_sin_dos_puntos z : ~ In ":"%char (list_ascii_of_string (str_Z z)).
Proof.
  unfold str_Z, NilZero.string_of_int, NilZero.string_of_uint.
  destruct (Z.to_int z) as [u|u]; destruct u; simpl;
    try (intuition discriminate);
    (intros [E|H]; [discriminate E|]);
    first [ exact (uint_sin_dos_puntos _ H)
          | destruct H as [E|H]; [discriminate E | exact (uint_sin_dos_puntos _ H)] ].
Qed.

Lemma partir_dos_puntos (x y c d : list ascii) :
  ~ In ":"%char x -> ~ In ":"%char y -> x ++ ":"%char :: c = y ++ ":"%char :: d -> x = y /\ c = d.
Proof.
  revert y. induction x as [|a x IH]; intros [|b y] Hx Hy E; simpl in E.
  - injection E as ->. auto.
  - injection E as E1 _. subst b. exfalso. apply Hy. left. reflexivity.
  - injection E as E1 _. subst a. exfalso. apply Hx. left. reflexivity.
  - injection E as -> E. destruct (IH y) as [-> ->]; auto.
    + intros H. apply Hx. right. exact H.
    + intros H. apply Hy. right. exact H.
Qed.

(** The seconds text of every [0 <= segundos < 60]: two characters, read
    back by Python's [int]. *)
Lemma segundos_texto m :
  (0 <= m < 60)%Z ->
  length (list_ascii_of_string (formato_0w 2 m)) = 2 /\
  option_map Z.of_int (NilZero.int_of_string (formato_0w 2 m)) = Some m.
Proof.
  intros Hm.
  assert (Hc : forallb (fun i =>
      Nat.eqb (length (list_ascii_of_string (formato_0w 2 (Z.of_nat i)))) 2 &&
      match option_map Z.of_int (NilZero.int_of_string (formato_0w 2 (Z.of_nat i))) with
      | Some v => Z.eqb v (Z.of_nat i) | None => false end) (seq 0 60) = true)
    by (vm_compute; reflexivity).
  rewrite forallb_forall in Hc. specialize (Hc (Z.to_nat m)).
  rewrite Z2Nat.id in Hc by lia.
  assert (Hin : In (Z.to_nat m) (seq 0 60)) by (apply in_seq; lia).
  specialize (Hc Hin). apply andb_prop in Hc as [H1 H2].
  apply Nat.eqb_eq in H1. split; [exact H1|].
  destruct (option_map Z.of_int (NilZero.int_of_string (formato_0w 2 m))) as [v|];
    [apply Z.eqb_eq in H2; rewrite H2; reflexivity | discriminate].
Qed.

Lemma formato_duracion_suf d1 d2 (x : string) :
  (formato_duracion d1 ++ x = formato_duracion d2 ++ x)%string -> d1 = d2.
Proof.
  intros E. unfold formato_duracion in E.
  apply (f_equal list_ascii_of_string) in E. rewrite !la_app in E.
  rewrite <- !app_assoc in E. cbn [list_ascii_of_string app] in E.
  apply partir_dos_puntos in E as [Eq Es]; try apply str_Z_sin_dos_puntos.
  apply la_inj, str_Z_inj in Eq.
  assert (Hm1 : (0 <= d1 mod 60 < 60)%Z) by (apply Z.mod_pos_bound; lia).
  assert (Hm2 : (0 <= d2 mod 60 < 60)%Z) by (apply Z.mod_pos_bound; lia).
  destruct (segundos_texto _ Hm1) as [L1 V1]. destruct (segundos_texto _ Hm2) as [L2 V2].
  apply app_inv_tail, la_inj in Es. rewrite Es, V2 in V1. injection V1 as Em.
  rewrite (Z_div_mod_eq_full d1 60), (Z_div_mod_eq_full d2 60), Eq, Em. reflexivity.
Qed.

(** X1: the duration text ["M:SS"] that [__str__] and the playlist
    table show is different for different durations, whatever the sign
    of the durations. *)
Theorem formato_duracion_inyectiva d1 d2 :
  formato_duracion d1 = formato_duracion d2 -> d1 = d2.
Proof.
  intros E. apply (formato_duracion_suf d1 d2 EmptyString).
  rewrite E. reflexivity.
Qed.

Lemma string_app_cancel (p a b : string) : (p ++ a = p ++ b)%string -> a = b.
Proof. induction p as [|ch p IH]; simpl; [auto | intros E; injection E; exact IH]. Qed.

(** X2: two nodes with the same title and artist have the same
    [__str__] text only if they have the same duration. *)
Theorem nodo_str_duracion n1 n2 :
  titulo n1 = titulo n2 -> artista n1 = artista n2 ->
  nodo_str n1 = nodo_str n2 -> duracion n1 = duracion n2.
Proof.
  intros Et Ea E. unfold nodo_str in E. rewrite Et, Ea in E.
  do 4 apply string_app_cancel in E.
  exact (formato_duracion_suf _ _ _ E).
Qed.

(** * Track data of the nodes *)

Section Conserva.
Context {A B : Type}.

Lemma conserva_ret (a : A) : conserva (ret a).
Proof. intros s s' x E Hf. injection E as <- _. split; [exact Hf|]. intros l n Hn. eauto. Qed.

Lemma conserva_raise : conserva (@raise A).
Proof. intros s s' x E. discriminate E. Qed.

Lemma conserva_bind (m : M A) (k : A -> M B) :
  conserva m -> (forall a, conserva (k a)) -> conserva (bind m k).
Proof.
  intros Hm Hk s s' b E Hf. unfold bind in E.
  destruct (m s) as [[s1 a]|] eqn:E1; [|discriminate].
  destruct (Hm _ _ _ E1 Hf) as [Hf1 H1]. destruct (Hk a _ _ _ E Hf1) as [Hf2 H2].
  split; [exact Hf2|]. intros l n Hn.
  destruct (H1 _ _ Hn) as (n1 & Hn1 & D1). destruct (H2 _ _ Hn1) as (n2 & Hn2 & D2).
  exists n2. split; [exact Hn2|]. congruence.
Qed.

End Conserva.

Lemma conserva_lectura {A} (f : estado -> A) : conserva (fun s => Some (s, f s)).
Proof. intros s s' x E Hf. injection E as <- _. split; [exact Hf|]. intros l n Hn. eauto. Qed.

Lemma conserva_campos (g : estado -> estado) :
  (forall s, heap (g s) = heap s /\ libre (g s) = libre s) ->
  conserva (fun s => Some (g s, tt)).
Proof.
  intros Hg s s' x E Hf. injection E as <- _. destruct (Hg s) as [Hh Hl].
  split; [intros k Hk; rewrite Hh; apply Hf; lia|]. rewrite Hh. intros l n Hn. eauto.
Qed.

Lemma conserva_get_actual : conserva get_actual.
Proof. apply conserva_lectura. Qed.
Lemma conserva_get_primero : conserva get_primero.
Proof. apply conserva_lectura. Qed.
Lemma conserva_get_tamanio : conserva get_tamanio.
Proof. apply conserva_lectura. Qed.
Lemma conserva_put_actual a : conserva (put_actual a).
Proof. apply conserva_campos. auto. Qed.
Lemma conserva_put_primero p : conserva (put_primero p).
Proof. apply conserva_campos. auto. Qed.
Lemma conserva_put_tamanio n : conserva (put_tamanio n).
Proof. apply conserva_campos. auto. Qed.

Lemma conserva_deref o : conserva (deref o).
Proof. destruct o; [apply conserva_ret | apply conserva_raise]. Qed.

Lemma conserva_leer l : conserva (leer l).
Proof.
  intros s s' x E Hf. unfold leer in E. destruct (heap s !! l) as [nl|]; [|discriminate].
  injection E as <- _. split; [exact Hf|]. intros k n Hn. eauto.
Qed.

(** A write of a link field keeps the track data of the node. *)
Lemma conserva_escribir_enlace l (f : nodo -> nodo) :
  (forall n, datos (f n) = datos n) ->
  conserva (let* n := leer l in escribir l (f n)).
Proof.
  intros Hd s s' x E Hf. unfold bind, leer, escribir in E.
  destruct (heap s !! l) as [nl|] eqn:El; [|discriminate].
  injection E as <- _. unfold fresco, conserva_datos in *. cbn [heap libre with_heap].
  assert (Hl : l < libre s).
  { destruct (Nat.lt_ge_cases l (libre s)) as [H|H]; [exact H|].
    rewrite (Hf l H) in El. discriminate. }
  split.
  - intros k Hk. cbn [libre with_heap] in Hk.
    rewrite lookup_insert_ne by lia. apply Hf. exact Hk.
  - intros k n Hn. destruct (decide (k = l)) as [->|Hk].
    + rewrite lookup_insert_eq. rewrite El in Hn. injection Hn as <-. eauto.
    + rewrite lookup_insert_ne by congruence. eauto.
Qed.

Lemma conserva_set_siguiente l q : conserva (set_siguiente l q).
Proof. apply conserva_escribir_enlace. reflexivity. Qed.
Lemma conserva_set_anterior l p : conserva (set_anterior l p).
Proof. apply conserva_escribir_enlace. reflexivity. Qed.

Lemma conserva_nuevo_nodo t a d r : conserva (nuevo_nodo t a d r).
Proof.
  intros s s' x E Hf. injection E as <- _. unfold fresco, conserva_datos in *. cbn [heap libre]. split.
  - intros k Hk. rewrite lookup_insert_ne by lia. apply Hf. lia.
  - intros l n Hn. assert (l <> libre s) by (intros ->; rewrite (Hf (libre s) (le_n _)) in Hn; discriminate).
    rewrite lookup_insert_ne by congruence. eauto.
Qed.

Lemma conserva_esta_vacia : conserva esta_vacia.
Proof. apply conserva_bind; [apply conserva_get_tamanio | intros; apply conserva_ret]. Qed.

Create HintDb conserva_db.
#[local] Hint Resolve conserva_ret conserva_raise conserva_get_actual conserva_get_primero
  conserva_get_tamanio conserva_put_actual conserva_put_primero conserva_put_tamanio
  conserva_deref conserva_leer conserva_set_siguiente conserva_set_anterior
  conserva_nuevo_nodo conserva_esta_vacia : conserva_db.

(** Decompose a computation into its statements. *)
Ltac conserva_tac :=
  repeat first
    [ apply conserva_set_siguiente | apply conserva_set_anterior
    | apply conserva_bind; intros
    | progress (auto with conserva_db)
    | match goal with
      | |- conserva (if ?b then _ else _) => destruct b
      | |- conserva (match ?o with _ => _ end) => destruct o
      end ].

Lemma conserva_agregar t a d r : conserva (agregar_cancion t a d r).
Proof. unfold agregar_cancion. conserva_tac. Qed.

Lemma conserva_eliminar : conserva eliminar_cancion_actual.
Proof. unfold eliminar_cancion_actual. conserva_tac. Qed.

Lemma conserva_siguiente : conserva siguiente_cancion.
Proof. unfold siguiente_cancion. conserva_tac. Qed.

Lemma conserva_anterior : conserva cancion_anterior.
Proof. unfold cancion_anterior. conserva_tac. Qed.

Lemma conserva_recorrer fuel nodo (acc : list loc) : conserva (recorrer fuel nodo acc).
Proof.
  revert nodo acc. induction fuel as [|fuel IH]; intros nodo acc; simpl; [apply conserva_raise|].
  conserva_tac; apply IH.
Qed.

Lemma conserva_todas fuel : conserva (obtener_todas_las_canciones fuel).
Proof. unfold obtener_todas_las_canciones. conserva_tac; apply conserva_recorrer. Qed.

Lemma conserva_agregar_varias ts : conserva (agregar_varias ts).
Proof.
  induction ts as [|[[[t a] d] r] ts IH]; simpl; [apply conserva_ret|].
  apply conserva_bind; [apply conserva_agregar|]. intros. apply conserva_bind; [exact IH|].
  intros. apply conserva_ret.
Qed.

Lemma paso_conserva s s' :
  paso s s' -> fresco s -> fresco s' /\ conserva_datos (heap s) (heap s').
Proof.
  intros Hp. destruct Hp as [s s' t a d r x E|s s' x E|s s' x E|s s' x E|s s' x E|s s' x E|fuel s s' x E].
  - exact (conserva_agregar t a d r _ _ _ E).
  - exact (conserva_eliminar _ _ _ E).
  - exact (conserva_siguiente _ _ _ E).
  - exact (conserva_anterior _ _ _ E).
  - exact (conserva_get_actual _ _ _ E).
  - exact (conserva_get_tamanio _ _ _ E).
  - exact (conserva_todas fuel _ _ _ E).
Qed.

Lemma rtc_paso_conserva s s' :
  rtc paso s s' -> fresco s -> fresco s' /\ conserva_datos (heap s) (heap s').
Proof.
  induction 1 as [s|s s1 s' H1 _ IH]; intros Hf.
  - split; [exact Hf|]. intros l n Hn. eauto.
  - destruct (paso_conserva _ _ H1 Hf) as [Hf1 C1]. destruct (IH Hf1) as [Hf2 C2].
    split; [exact Hf2|]. intros l n Hn.
    destruct (C1 _ _ Hn) as (n1 & Hn1 & D1). destruct (C2 _ _ Hn1) as (n2 & Hn2 & D2).
    exists n2. split; [exact Hn2|]. congruence.
Qed.

Lemma alcanzable_fresco s : alcanzable s -> fresco s.
Proof. intros Ha. destruct (alcanzable_repr s Ha) as (L & Hs). exact (repr_libre _ _ Hs). Qed.

(** X3: starting from a reachable playlist, any sequence of calls of the
    methods of [ListaReproduccion] leaves every existing node object
    allocated, with its title, artist, duration and path unchanged. *)
Theorem datos_inmutables s s' l n :
  alcanzable s -> rtc paso s s' -> heap s !! l = Some n ->
  exists n', heap s' !! l = Some n' /\
    titulo n' = titulo n /\ artista n' = artista n /\
    duracion n' = duracion n /\ ruta n' = ruta n.
Proof.
  intros Ha Hr Hn. destruct (rtc_paso_conserva s s' Hr (alcanzable_fresco s Ha)) as [_ C].
  destruct (C _ _ Hn) as (n' & Hn' & D). exists n'. split; [exact Hn'|].
  unfold datos in D. injection D. auto.
Qed.

Lemma bind_inv {A B} (m : M A) (k : A -> M B) s s' b :
  bind m k s = Some (s', b) -> exists s1 a, m s = Some (s1, a) /\ k a s1 = Some (s', b).
Proof. unfold bind. destruct (m s) as [[s1 a]|]; [eauto | discriminate]. Qed.

(** [agregar_cancion] returns a fresh node carrying its arguments. *)
Lemma agregar_nuevo_datos t a d r s s' z :
  agregar_cancion t a d r s = Some (s', z) -> fresco s ->
  exists n, heap s' !! z = Some n /\ datos n = (t, a, d, r).
Proof.
  intros E Hf. unfold agregar_cancion in E.
  apply bind_inv in E as (s1 & x & E1 & E2).
  destruct (conserva_nuevo_nodo t a d r _ _ _ E1 Hf) as [Hf1 _].
  injection E1 as <- <-.
  match type of E2 with ?f _ = _ => assert (C : conserva f) by (cbv beta; conserva_tac) end.
  assert (Ez : z = libre s).
  { cbv beta in E2. apply bind_inv in E2 as (s2 & u & _ & E3).
    apply bind_inv in E3 as (s3 & m & _ & E4).
    apply bind_inv in E4 as (s4 & u' & _ & E5). injection E5 as _ <-. reflexivity. }
  destruct (C _ _ _ E2 Hf1) as [_ D]. subst z.
  destruct (D (libre s) (mk_nodo t a d r (libre s) (libre s))) as (n & Hn & Dn).
  - cbn [heap]. apply lookup_insert_eq.
  - exists n. split; [exact Hn | exact Dn].
Qed.

Lemma agregar_varias_datos ts s s' ls :
  agregar_varias ts s = Some (s', ls) -> fresco s ->
  length ls = length ts /\
  forall i t a d r, ts !! i = Some (t, a, d, r) ->
    exists x n, ls !! i = Some x /\ heap s' !! x = Some n /\ datos n = (t, a, d, r).
Proof.
  revert s ls. induction ts as [|[[[t a] d] r] ts IH]; intros s ls E Hf; simpl in E.
  - injection E as <- <-. split; [reflexivity|]. intros i t a d r Hi. rewrite lookup_nil in Hi. discriminate.
  - apply bind_inv in E as (s1 & z & E1 & E2).
    apply bind_inv in E2 as (s2 & xs & E2 & E3). injection E3 as <- <-.
    destruct (conserva_agregar t a d r _ _ _ E1 Hf) as [Hf1 _].
    destruct (conserva_agregar_varias ts _ _ _ E2 Hf1) as [_ D2].
    destruct (IH _ _ E2 Hf1) as [Hlen Hi].
    split; [simpl; rewrite Hlen; reflexivity|].
    intros [|i] t' a' d' r' Ei; simpl in Ei.
    + injection Ei as <- <- <- <-.
      destruct (agregar_nuevo_datos t a d r _ _ _ E1 Hf) as (n & Hn & Dn).
      destruct (D2 _ _ Hn) as (n' & Hn' & Dn').
      exists z, n'. split; [reflexivity|]. split; [exact Hn'|]. congruence.
    + destruct (Hi _ _ _ _ _ Ei) as (x & n & Hx & Hn & Dn). exists x, n. auto.
Qed.

Lemma update_view_spec fuel s (L : list loc) cm ca :
  repr s L -> length L <= fuel ->
  update_view fuel (mk_widget s cm ca) =
  Some (mk_widget s L (match actual s with Some c => Some c | None => ca end), tt).
Proof.
  intros Hs Hf. pose proof (repr_inv _ _ Hs) as Hinv.
  assert (Ht : tamanio s <= fuel) by (destruct Hinv as (_ & Ht & _); lia).
  unfold update_view, bindW, en_lista. cbn [lista_reproduccion canciones_modelo cancion_actual_modelo].
  rewrite (todas_spec fuel s L Hinv Ht). cbn.
  destruct (actual s); reflexivity.
Qed.

(** X4: after a sequence of [agregar_cancion] calls on a new playlist and
    a refresh of the table ([_update_view]), row [i] of the table shows
    the title, the artist and the ["M:SS"] duration of the [i]-th added
    song, and every row outside [0 <= fila < n] shows nothing. *)
Theorem tabla_tras_agregar (ts : list (string * string * Z * string)) fuel cm ca :
  length ts <= fuel ->
  exists s ls w,
    agregar_varias ts lista_vacia = Some (s, ls) /\
    update_view fuel (mk_widget s cm ca) = Some (w, tt) /\
    canciones_modelo w = ls /\
    (forall i t a d r, ts !! i = Some (t, a, d, r) ->
       data_display (heap (lista_reproduccion w)) (canciones_modelo w) true (Z.of_nat i) 0
         = Some (Some t) /\
       data_display (heap (lista_reproduccion w)) (canciones_modelo w) true (Z.of_nat i) 1
         = Some (Some a) /\
       data_display (heap (lista_reproduccion w)) (canciones_modelo w) true (Z.of_nat i) 2
         = Some (Some (formato_duracion d))) /\
    (forall fila columna, (fila < 0 \/ Z.of_nat (length ts) <= fila)%Z ->
       data_display (heap (lista_reproduccion w)) (canciones_modelo w) true fila columna
         = Some None).
Proof.
  intros Hf.
  destruct (agregar_varias_spec ts lista_vacia [] repr_vacia) as (s & ls & E & Hs & Hlen).
  simpl in Hs.
  destruct (agregar_varias_datos ts _ _ _ E (repr_libre _ _ repr_vacia)) as [_ Hd].
  exists s, ls, (mk_widget s ls (match actual s with Some c => Some c | None => ca end)).
  split; [exact E|]. split; [apply update_view_spec; [exact Hs | lia]|].
  split; [reflexivity|]. cbn [lista_reproduccion canciones_modelo]. split.
  - intros i t a d r Hi. destruct (Hd _ _ _ _ _ Hi) as (x & n & Hx & Hn & Dn).
    unfold datos in Dn. injection Dn as Et Ea Ed Er.
    assert (Hil : i < length ls) by (apply lookup_lt_Some in Hx; exact Hx).
    unfold data_display. rewrite Nat2Z.id, Hx.
    replace ((0 <=? Z.of_nat i)%Z && (Z.of_nat i <? Z.of_nat (length ls))%Z) with true
      by (symmetry; apply andb_true_intro; split; [apply Z.leb_le | apply Z.ltb_lt]; lia).
    cbn -[formato_duracion]. rewrite Hn. rewrite Et, Ea, Ed. auto.
  - intros fila col Hfila. unfold data_display.
    replace ((0 <=? fila)%Z && (fila <? Z.of_nat (length ls))%Z) with false
      by (symmetry; rewrite Hlen; destruct Hfila;
          [rewrite (proj2 (Z.leb_gt 0 fila)) by lia; reflexivity
          | rewrite andb_comm, (proj2 (Z.ltb_ge _ _)) by lia; reflexivity]).
    reflexivity.
Qed.

(** * The handlers of [PlaylistWidget] *)

Lemma bindW_en_lista {A B} (m : M A) (k : A -> W B) s cm ca :
  bindW (en_lista m) k (mk_widget s cm ca) =
  match m s with Some (s', a) => k a (mk_widget s' cm ca) | None => None end.
Proof. unfold bindW, en_lista. cbn. destruct (m s) as [[s' a]|]; reflexivity. Qed.

Lemma bindW_set_cancion_actual {B} c (k : unit -> W B) s cm ca :
  bindW (set_cancion_actual c) k (mk_widget s cm ca) = k tt (mk_widget s cm c).
Proof. reflexivity. Qed.

Lemma bindW_assoc {A B C} (m : W A) (k : A -> W B) (k' : B -> W C) w :
  bindW (bindW m k) k' w = bindW m (fun a => bindW (k a) k') w.
Proof. unfold bindW. destruct (m w) as [[w' a]|]; reflexivity. Qed.

Lemma bindW_retW {A B} (a : A) (k : A -> W B) w : bindW (retW a) k w = k a w.
Proof. reflexivity. Qed.

Lemma repr_no_vacia_actual s (L : list loc) :
  repr s L -> L <> [] -> exists c, actual s = Some c /\ In c L.
Proof.
  intros Hs HL. pose proof (repr_actual _ _ Hs) as Ha.
  destruct (actual s) as [c|]; [eauto | congruence].
Qed.

Lemma esta_vacia_repr s (L : list loc) :
  repr s L -> esta_vacia s = Some (s, match L with [] => true | _ => false end).
Proof.
  intros Hs. destruct (repr_inv _ _ Hs) as (_ & Ht & _).
  unfold esta_vacia. rewrite bind_get_tamanio, Ht. destruct L; reflexivity.
Qed.

(** The [while ... != objetivo: siguiente_cancion()] loop stops on the
    target once it is [k] steps ahead, within [k + 1] tests. *)
Lemma avanzar_spec fuel k s (L : list loc) c t :
  repr s L -> actual s = Some c -> iter_siguiente (heap s) k c = Some t -> k < fuel ->
  avanzar_hasta fuel (Some t) s = Some (with_actual s (Some t), tt).
Proof.
  revert fuel s c. induction k as [|k IH]; intros fuel s c Hs Hc Hi Hk;
    (destruct fuel as [|fuel]; [lia|]); cbn [avanzar_hasta]; unfold obtener_cancion_actual;
    rewrite bind_get_actual, Hc.
  - cbn in Hi. injection Hi as ->. rewrite decide_False by tauto.
    rewrite with_actual_eta by exact Hc. reflexivity.
  - destruct (decide (c = t)) as [->|Hct].
    + rewrite decide_False by tauto. rewrite with_actual_eta by exact Hc. reflexivity.
    + rewrite decide_True by congruence.
      assert (HL : L <> []) by (intros ->; pose proof (repr_actual _ _ Hs) as H; rewrite Hc in H; exact H).
      destruct (siguiente_spec s L Hs HL) as (c0 & nc & Hc0 & Hnc & E & Hs1).
      rewrite Hc in Hc0. injection Hc0 as <-.
      cbn [iter_siguiente] in Hi. rewrite Hnc in Hi.
      unfold bind. rewrite E.
      rewrite (IH fuel _ (siguiente nc) Hs1 eq_refl Hi) by lia. reflexivity.
Qed.

(** From any node of the ring, every node of the ring is fewer than
    [length L] steps ahead along [siguiente]. *)
Lemma alcanzar s (L : list loc) c t :
  repr s L -> In c L -> In t L ->
  exists k, k < length L /\ iter_siguiente (heap s) k c = Some t.
Proof.
  intros Hs Hc Ht. destruct (repr_inv _ _ Hs) as (_ & _ & _ & Hr).
  apply in_split in Hc as (A & B & EL). subst L.
  apply anillo_al_frente in Hr. unfold anillo in Hr.
  assert (Ht' : In t (c :: B ++ A)).
  { apply in_app_or in Ht as [Ht|[<-|Ht]].
    - right. apply in_or_app. right. exact Ht.
    - left. reflexivity.
    - right. apply in_or_app. left. exact Ht. }
  destruct (In_nth _ _ c Ht') as (k & Hk & Ek).
  exists k. split.
  - rewrite length_app. cbn [length] in *. rewrite length_app in Hk. lia.
  - rewrite <- Ek. exact (iter_siguiente_nth _ _ _ c k Hr Hk).
Qed.

Lemma avanzar_en_anillo fuel s (L : list loc) t :
  repr s L -> In t L -> length L <= fuel ->
  avanzar_hasta fuel (Some t) s = Some (with_actual s (Some t), tt).
Proof.
  intros Hs Ht Hf. assert (HL : L <> []) by (intros ->; destruct Ht).
  destruct (repr_no_vacia_actual s L Hs HL) as (c & Hc & HcL).
  destruct (alcanzar s L c t Hs HcL Ht) as (k & Hk & Hi).
  apply (avanzar_spec fuel k s L c t Hs Hc Hi). lia.
Qed.

Lemma partir_en_fila (L : list loc) row x :
  NoDup L -> L !! row = Some x ->
  forall A B, L = A ++ x :: B -> A ++ B = delete row L.
Proof.
  intros Hnd Hx A B EL.
  assert (Hr : row = length A).
  { apply (NoDup_lookup L row (length A) x Hnd Hx).
    rewrite EL, lookup_app_r, Nat.sub_diag by lia. reflexivity. }
  subst row. rewrite EL, delete_middle. reflexivity.
Qed.

Lemma bind_eq {A B} (m : M A) (k : A -> M B) s s1 a :
  m s = Some (s1, a) -> bind m k s = k a s1.
Proof. intros E. unfold bind. rewrite E. reflexivity. Qed.

Lemma lookup_In (L : list loc) row x : L !! row = Some x -> In x L.
Proof.
  intros Hx. rewrite <- (take_drop_middle L row x Hx).
  apply in_or_app. right. left. reflexivity.
Qed.

Lemma quitar_fila_spec fuel s (L : list loc) row rest cm ca x :
  repr s L -> length L <= fuel -> L !! row = Some x ->
  exists s',
    on_remove_clicked fuel (row :: rest) (mk_widget s cm ca) =
      Some (mk_widget s' (delete row L)
              (match actual s' with Some c => Some c | None => ca end), [x]) /\
    repr s' (delete row L) /\
    (actual s <> Some x -> actual s' = actual s) /\
    (actual s = Some x ->
       exists n, heap s !! x = Some n /\
         actual s' = (if decide (length L = 1) then None else Some (siguiente n))).
Proof.
  intros Hs Hf Hx. pose proof (lookup_In L row x Hx) as HxL.
  assert (HL : L <> []) by (intros ->; destruct HxL).
  pose proof (repr_inv _ _ Hs) as Hinv. pose proof Hinv as (Hnd & Ht & _ & _).
  destruct (repr_no_vacia_actual s L Hs HL) as (c & Hc & HcL).
  unfold on_remove_clicked. rewrite bindW_en_lista, (esta_vacia_repr s L Hs).
  replace (match L with [] => true | _ => false end) with false by (destruct L; congruence).
  rewrite bindW_en_lista, (todas_spec fuel s L Hinv) by lia. rewrite Hx.
  rewrite bindW_en_lista. unfold obtener_cancion_actual.
  rewrite !bind_get_actual, Hc.
  destruct (decide (Some x = Some c)) as [Exc|Exc].
  - (* the selected row is the current song *)
    injection Exc as <-.
    destruct (eliminar_spec s L Hs HL)
      as (c' & nc & A & B & Hc' & Hnc & EL & s' & E & Hs' & Ht' & _ & _ & H1 & H2).
    rewrite Hc in Hc'. injection Hc' as <-.
    rewrite (bind_eq _ _ _ _ _ E).
    rewrite (partir_en_fila L row x Hnd Hx A B EL) in Hs'.
    assert (Hlen : length (delete row L) <= fuel).
    { rewrite <- (partir_en_fila L row x Hnd Hx A B EL). rewrite EL, length_app in Hf.
      rewrite length_app. simpl in Hf. lia. }
    exists s'. cbn [ret emitir_si]. unfold bindW.
    rewrite (update_view_spec fuel s' (delete row L) cm ca Hs' Hlen). cbn [retW].
    split; [reflexivity|]. split; [exact Hs'|]. split; [intros H; contradiction|].
    intros _. exists nc. split; [exact Hnc|]. rewrite <- Ht.
    destruct (decide (tamanio s = 1)) as [E1|E1]; [apply H1 | apply H2]; exact E1.
  - (* first move to the selected row, then remove it, then return *)
    assert (Hcx : c <> x) by congruence.
    rewrite (bind_eq _ _ _ _ _ (avanzar_en_anillo fuel s L x Hs HxL Hf)).
    pose proof (repr_con_actual s L x Hs HxL) as Hs1.
    destruct (eliminar_spec _ L Hs1 HL)
      as (c' & nc & A & B & Hc' & Hnc & EL & s2 & E & Hs2 & Ht2 & _ & _ & _ & H2).
    cbn [actual with_actual] in Hc'. injection Hc' as <-.
    rewrite (bind_eq _ _ _ _ _ E), bind_esta_vacia.
    assert (H2L : length L <> 1).
    { intros E1. destruct L as [|y [|z M]]; [congruence| |simpl in E1; lia].
      destruct HxL as [<-|[]]. destruct HcL as [<-|[]]. congruence. }
    assert (H0L : length L <> 0) by (destruct L; simpl; congruence).
    cbn [tamanio with_actual] in Ht2. rewrite Ht2, Ht.
    replace (Nat.eqb (length L - 1) 0) with false by (symmetry; apply Nat.eqb_neq; lia).
    rewrite bool_decide_true by congruence. cbn [negb andb].
    assert (HcAB : In c (A ++ B)).
    { rewrite EL in HcL. apply in_app_or in HcL as [H|[H|H]];
        [apply in_or_app; left; exact H | congruence | apply in_or_app; right; exact H]. }
    assert (HlenAB : length (A ++ B) <= fuel).
    { rewrite EL, length_app in Hf. rewrite length_app. simpl in Hf. lia. }
    rewrite (bind_eq _ _ _ _ _ (avanzar_en_anillo fuel s2 (A ++ B) c Hs2 HcAB HlenAB)).
    pose proof (repr_con_actual s2 (A ++ B) c Hs2 HcAB) as Hs3.
    rewrite (partir_en_fila L row x Hnd Hx A B EL) in Hs3, HlenAB.
    exists (with_actual s2 (Some c)). cbn [ret emitir_si]. unfold bindW.
    rewrite (update_view_spec fuel _ (delete row L) cm ca Hs3 HlenAB). cbn [retW].
    split; [reflexivity|]. split; [exact Hs3|]. split; [reflexivity|].
    intros E'. congruence.
Qed.

Lemma quitar_fuera_spec fuel s (L : list loc) row rest cm ca :
  repr s L -> length L <= fuel -> L !! row = None ->
  on_remove_clicked fuel (row :: rest) (mk_widget s cm ca) =
  match L with
  | [] => Some (mk_widget s cm ca, [])
  | _ => Some (mk_widget s L (match actual s with Some c => Some c | None => ca end), [])
  end.
Proof.
  intros Hs Hf Hx. pose proof (repr_inv _ _ Hs) as Hinv.
  unfold on_remove_clicked. rewrite bindW_en_lista, (esta_vacia_repr s L Hs).
  destruct L as [|y M] eqn:EL; [reflexivity|]. rewrite <- EL in *.
  rewrite bindW_en_lista, (todas_spec fuel s L Hinv) by (destruct Hinv as (_ & Ht & _); lia).
  rewrite Hx, bindW_retW. unfold bindW.
  rewrite (update_view_spec fuel s L cm ca Hs Hf). reflexivity.
Qed.

Lemma seleccionar_fila_spec fuel s (L : list loc) row cm ca :
  repr s L -> length L <= fuel ->
  on_table_double_clicked fuel row (mk_widget s cm ca) =
  match L !! row with
  | Some x => Some (mk_widget (with_actual s (Some x)) cm
                      (if decide (actual s = Some x) then ca else Some x), [Some x])
  | None => Some (mk_widget s cm ca, [])
  end.
Proof.
  intros Hs Hf. pose proof (repr_inv _ _ Hs) as Hinv.
  unfold on_table_double_clicked. rewrite bindW_en_lista, (esta_vacia_repr s L Hs).
  destruct L as [|y M] eqn:EL; [rewrite lookup_nil; reflexivity|]. rewrite <- EL in *.
  assert (HL : L <> []) by (rewrite EL; discriminate).
  rewrite bindW_en_lista, (todas_spec fuel s L Hinv) by (destruct Hinv as (_ & Ht & _); lia).
  destruct (L !! row) as [x|] eqn:Hx; [|reflexivity].
  pose proof (lookup_In L row x Hx) as HxL.
  destruct (repr_no_vacia_actual s L Hs HL) as (c & Hc & HcL).
  rewrite bindW_en_lista. cbn [obtener_cancion_actual get_actual]. rewrite Hc.
  destruct (decide (Some x <> Some c)) as [Hxc|Hxc].
  - rewrite bindW_assoc, bindW_en_lista. cbn [obtener_cancion_actual get_actual]. rewrite Hc.
    cbv beta iota.
    rewrite !bindW_assoc, bindW_en_lista, (avanzar_en_anillo fuel s L x Hs HxL Hf).
    rewrite bindW_assoc, bindW_set_cancion_actual, !bindW_retW. cbv beta iota.
    rewrite bindW_en_lista. cbn [obtener_cancion_actual get_actual actual with_actual].
    rewrite decide_False by congruence. reflexivity.
  - assert (x = c) as -> by (destruct (decide (x = c)); [assumption | exfalso; apply Hxc; congruence]).
    rewrite !bindW_retW. cbv beta iota. rewrite bindW_en_lista.
    cbn [obtener_cancion_actual get_actual]. rewrite Hc, decide_True by reflexivity.
    rewrite with_actual_eta by exact Hc. reflexivity.
Qed.

Lemma next_song_spec fuel s (L : list loc) cm ca :
  repr s L -> length L <= fuel ->
  exists r,
    next_song fuel (mk_widget s cm ca) =
      Some (mk_widget (with_actual s r) L (match r with Some c => Some c | None => ca end), r) /\
    repr (with_actual s r) L /\
    match actual s with
    | None => r = None
    | Some c => exists n, heap s !! c = Some n /\ r = Some (siguiente n)
    end.
Proof.
  intros Hs Hf. unfold next_song. rewrite bindW_en_lista.
  destruct L as [|y M] eqn:EL.
  - pose proof (repr_actual _ _ Hs) as Ha. destruct (actual s) eqn:Hc; [destruct Ha|].
    rewrite (siguiente_vacia s) by (destruct (repr_inv _ _ Hs) as (_ & Ht & _); exact Ht).
    rewrite !bindW_retW. unfold bindW.
    rewrite (update_view_spec fuel s [] cm ca Hs Hf), Hc. cbn [retW].
    exists None. rewrite with_actual_eta by exact Hc. auto.
  - rewrite <- EL in *. assert (HL : L <> []) by (rewrite EL; discriminate).
    destruct (siguiente_spec s L Hs HL) as (c & nc & Hc & Hnc & E & Hs1).
    rewrite E, bindW_set_cancion_actual. unfold bindW.
    rewrite (update_view_spec fuel _ L cm _ Hs1 Hf). cbn [retW actual with_actual].
    exists (Some (siguiente nc)). split; [reflexivity|]. split; [exact Hs1|].
    rewrite Hc. eauto.
Qed.

Lemma anterior_widget_spec fuel s (L : list loc) cm ca :
  repr s L -> length L <= fuel ->
  exists r,
    cancion_anterior_widget fuel (mk_widget s cm ca) =
      Some (mk_widget (with_actual s r) L (match r with Some c => Some c | None => ca end), r) /\
    repr (with_actual s r) L /\
    match actual s with
    | None => r = None
    | Some c => exists n, heap s !! c = Some n /\ r = Some (anterior n)
    end.
Proof.
  intros Hs Hf. unfold cancion_anterior_widget. rewrite bindW_en_lista.
  destruct L as [|y M] eqn:EL.
  - pose proof (repr_actual _ _ Hs) as Ha. destruct (actual s) eqn:Hc; [destruct Ha|].
    rewrite (anterior_vacia s) by (destruct (repr_inv _ _ Hs) as (_ & Ht & _); exact Ht).
    rewrite !bindW_retW. unfold bindW.
    rewrite (update_view_spec fuel s [] cm ca Hs Hf), Hc. cbn [retW].
    exists None. rewrite with_actual_eta by exact Hc. auto.
  - rewrite <- EL in *. assert (HL : L <> []) by (rewrite EL; discriminate).
    destruct (anterior_spec s L Hs HL) as (c & nc & Hc & Hnc & E & Hs1).
    rewrite E, bindW_set_cancion_actual. unfold bindW.
    rewrite (update_view_spec fuel _ L cm _ Hs1 Hf). cbn [retW actual with_actual].
    exists (Some (anterior nc)). split; [reflexivity|]. split; [exact Hs1|].
    rewrite Hc. eauto.
Qed.

Lemma alcanzable_recorrido s fuel :
  alcanzable s -> tamanio s <= fuel ->
  exists L, repr s L /\ obtener_todas_las_canciones fuel s = Some (s, L) /\ length L <= fuel.
Proof.
  intros Ha Hf. destruct (alcanzable_repr s Ha) as (L & Hs).
  pose proof (repr_inv _ _ Hs) as Hinv. pose proof Hinv as (_ & Ht & _).
  exists L. split; [exact Hs|]. split; [exact (todas_spec fuel s L Hinv Hf) | lia].
Qed.

(** X5: [_on_remove_clicked] on a selected row [row] of the table of a
    reachable playlist removes exactly the song shown on that row: it
    sends that node once by [song_removed], the playlist's songs are then
    the former ones without that row, in the same order, and the table
    shows them; the current song stays the same unless it was the removed
    one, in which case it becomes the removed node's [siguiente] (or
    [None] if the playlist had one song). *)
Theorem quitar_fila s fuel row rest cm ca :
  alcanzable s -> tamanio s <= fuel ->
  exists L, obtener_todas_las_canciones fuel s = Some (s, L) /\
  forall x, L !! row = Some x ->
  exists s',
    on_remove_clicked fuel (row :: rest) (mk_widget s cm ca) =
      Some (mk_widget s' (delete row L)
              (match actual s' with Some c => Some c | None => ca end), [x]) /\
    obtener_todas_las_canciones fuel s' = Some (s', delete row L) /\
    (actual s <> Some x -> actual s' = actual s) /\
    (actual s = Some x ->
       exists n, heap s !! x = Some n /\
         actual s' = (if decide (length L = 1) then None else Some (siguiente n))).
Proof.
  intros Ha Hf. destruct (alcanzable_recorrido s fuel Ha Hf) as (L & Hs & E & HL).
  exists L. split; [exact E|]. intros x Hx.
  destruct (quitar_fila_spec fuel s L row rest cm ca x Hs HL Hx) as (s' & E' & Hs' & H1 & H2).
  exists s'. split; [exact E'|]. split; [|auto].
  pose proof (repr_inv _ _ Hs') as Hinv'. apply (todas_spec fuel s' _ Hinv').
  destruct Hinv' as (_ & Ht' & _). rewrite Ht'.
  rewrite length_delete by (rewrite Hx; eauto). lia.
Qed.

(** X6: [_on_remove_clicked] with no selected row, or on a row past the
    end of the table, removes nothing, sends no [song_removed] signal and
    leaves the playlist unchanged. *)
Theorem quitar_sin_fila s fuel cm ca :
  alcanzable s -> tamanio s <= fuel ->
  on_remove_clicked fuel [] (mk_widget s cm ca) = Some (mk_widget s cm ca, []) /\
  forall row rest, tamanio s <= row ->
    exists w', on_remove_clicked fuel (row :: rest) (mk_widget s cm ca) = Some (w', []) /\
               lista_reproduccion w' = s.
Proof.
  intros Ha Hf. split; [reflexivity|]. intros row rest Hrow.
  destruct (alcanzable_recorrido s fuel Ha Hf) as (L & Hs & _ & HL).
  assert (Hx : L !! row = None).
  { apply lookup_ge_None_2. destruct (repr_inv _ _ Hs) as (_ & Ht & _). lia. }
  rewrite (quitar_fuera_spec fuel s L row rest cm ca Hs HL Hx).
  destruct L; eexists; (split; [reflexivity|reflexivity]).
Qed.

(** X7: [_on_table_double_clicked] on row [row] of the table of a
    reachable playlist makes the song of that row the current one (the
    ring is untouched), highlights it in the table model unless it was
    already current, and sends it by [song_selected]; on a row past the
    end it does nothing. *)
Theorem seleccionar_fila s fuel row cm ca :
  alcanzable s -> tamanio s <= fuel ->
  exists L, obtener_todas_las_canciones fuel s = Some (s, L) /\
  on_table_double_clicked fuel row (mk_widget s cm ca) =
  match L !! row with
  | Some x => Some (mk_widget (with_actual s (Some x)) cm
                      (if decide (actual s = Some x) then ca else Some x), [Some x])
  | None => Some (mk_widget s cm ca, [])
  end.
Proof.
  intros Ha Hf. destruct (alcanzable_recorrido s fuel Ha Hf) as (L & Hs & E & HL).
  exists L. split; [exact E|]. exact (seleccionar_fila_spec fuel s L row cm ca Hs HL).
Qed.

(** X8: [PlaylistWidget.next_song] and [PlaylistWidget.cancion_anterior]
    on a reachable playlist move the current song to the [siguiente]
    (resp. [anterior]) of the current node and return it, highlight it in
    the table, and refresh the table with the unchanged list of songs; on
    an empty playlist they return [None] and change nothing but the
    (empty) table. *)
Theorem botones_navegacion s fuel cm ca :
  alcanzable s -> tamanio s <= fuel ->
  exists L, obtener_todas_las_canciones fuel s = Some (s, L) /\
  (exists r,
     next_song fuel (mk_widget s cm ca) =
       Some (mk_widget (with_actual s r) L (match r with Some c => Some c | None => ca end), r) /\
     match actual s with
     | None => r = None
     | Some c => exists n, heap s !! c = Some n /\ r = Some (siguiente n)
     end) /\
  (exists r,
     cancion_anterior_widget fuel (mk_widget s cm ca) =
       Some (mk_widget (with_actual s r) L (match r with Some c => Some c | None => ca end), r) /\
     match actual s with
     | None => r = None
     | Some c => exists n, heap s !! c = Some n /\ r = Some (anterior n)
     end).
Proof.
  intros Ha Hf. destruct (alcanzable_recorrido s fuel Ha Hf) as (L & Hs & E & HL).
  exists L. split; [exact E|]. split.
  - destruct (next_song_spec fuel s L cm ca Hs HL) as (r & E1 & _ & H1). eauto.
  - destruct (anterior_widget_spec fuel s L cm ca Hs HL) as (r & E1 & _ & H1). eauto.
Qed.

(** X9: when the table model lists the playlist's songs in order and
    highlights its current song, it still does after any of the handlers
    [_on_remove_clicked], [_on_table_double_clicked], [next_song] and
    [cancion_anterior], each of which terminates. *)
Theorem widget_sincronizado w fuel :
  sincronizado w -> tamanio (lista_reproduccion w) <= fuel ->
  (forall indexes, exists w' e, on_remove_clicked fuel indexes w = Some (w', e) /\ sincronizado w') /\
  (forall row, exists w' e, on_table_double_clicked fuel row w = Some (w', e) /\ sincronizado w') /\
  (exists w' r, next_song fuel w = Some (w', r) /\ sincronizado w') /\
  (exists w' r, cancion_anterior_widget fuel w = Some (w', r) /\ sincronizado w').
Proof.
  destruct w as [s cm ca]. intros (L & Hs & Hcm & Hca) Hf. cbn in Hs, Hcm, Hca, Hf. subst cm.
  assert (HL : length L <= fuel) by (destruct (repr_inv _ _ Hs) as (_ & Ht & _); lia).
  assert (Hsync : forall s' L', repr s' L' ->
            sincronizado (mk_widget s' L' (match actual s' with Some c => Some c | None => ca end))).
  { intros s' L' Hs'. exists L'. cbn. split; [exact Hs'|]. split; [reflexivity|].
    intros c ->. reflexivity. }
  split; [|split; [|split]].
  - intros [|row rest]; [exists (mk_widget s L ca), []; split; [reflexivity|exists L; auto]|].
    destruct (L !! row) as [x|] eqn:Hx.
    + destruct (quitar_fila_spec fuel s L row rest L ca x Hs HL Hx) as (s' & E & Hs' & _).
      rewrite E. eexists _, _. split; [reflexivity|]. apply Hsync. exact Hs'.
    + rewrite (quitar_fuera_spec fuel s L row rest L ca Hs HL Hx).
      destruct L as [|y M]; (eexists _, _; split; [reflexivity|]);
        [exists []; auto | apply Hsync; exact Hs].
  - intros row. rewrite (seleccionar_fila_spec fuel s L row L ca Hs HL).
    destruct (L !! row) as [x|] eqn:Hx; (eexists _, _; split; [reflexivity|]); [|exists L; auto].
    exists L. cbn. split; [exact (repr_con_actual s L x Hs (lookup_In L row x Hx))|].
    split; [reflexivity|]. intros c E. injection E as <-.
    destruct (decide (actual s = Some x)) as [Ex|Ex]; [exact (Hca x Ex) | reflexivity].
  - destruct (next_song_spec fuel s L L ca Hs HL) as (r & E & Hs1 & _).
    rewrite E. eexists _, _. split; [reflexivity|]. exists L. cbn.
    split; [exact Hs1|]. split; [reflexivity|]. intros c ->. reflexivity.
  - destruct (anterior_widget_spec fuel s L L ca Hs HL) as (r & E & Hs1 & _).
    rewrite E. eexists _, _. split; [reflexivity|]. exists L. cbn.
    split; [exact Hs1|]. split; [reflexivity|]. intros c ->. reflexivity.
Qed.

(** X10: [agregar_cancion] on a reachable playlist creates a node object
    that is not already in the playlist, carries the given title, artist,
    duration and path, and comes last in [obtener_todas_las_canciones],
    after the former songs in their former order. *)
Theorem agregar_al_final t a d r s fuel :
  alcanzable s -> S (tamanio s) <= fuel ->
  exists L s' z n,
    obtener_todas_las_canciones fuel s = Some (s, L) /\
    agregar_cancion t a d r s = Some (s', z) /\
    ~ In z L /\
    heap s' !! z = Some n /\
    titulo n = t /\ artista n = a /\ duracion n = d /\ ruta n = r /\
    obtener_todas_las_canciones fuel s' = Some (s', L ++ [z]).
Proof.
  intros Ha Hf. destruct (alcanzable_recorrido s fuel Ha ltac:(lia)) as (L & Hs & E & _).
  destruct (agregar_spec t a d r s L Hs) as (s' & E' & Hs' & _ & _ & Ht' & _).
  destruct (agregar_nuevo_datos t a d r s s' _ E' (repr_libre _ _ Hs)) as (n & Hn & Dn).
  unfold datos in Dn. injection Dn as Et Ea Ed Er.
  exists L, s', (libre s), n. split; [exact E|]. split; [exact E'|].
  split; [intros Hz; exact (repr_ne_libre _ _ _ _ Hs Hz (le_n _) eq_refl)|].
  split; [exact Hn|]. split; [exact Et|]. split; [exact Ea|]. split; [exact Ed|].
  split; [exact Er|].
  apply todas_spec; [exact (repr_inv _ _ Hs')|]. lia.
Qed.

(** X11: [eliminar_cancion_actual] on a reachable non-empty playlist
    takes exactly the current song out of [obtener_todas_las_canciones]:
    the other songs stay, in their former order, and the removed node is
    no longer listed. *)
Theorem eliminar_del_recorrido s fuel :
  alcanzable s -> tamanio s <> 0 -> tamanio s <= fuel ->
  exists c A B s',
    actual s = Some c /\
    obtener_todas_las_canciones fuel s = Some (s, A ++ c :: B) /\
    eliminar_cancion_actual s = Some (s', Some c) /\
    obtener_todas_las_canciones fuel s' = Some (s', A ++ B) /\
    ~ In c (A ++ B).
Proof.
  intros Ha H0 Hf. destruct (alcanzable_recorrido s fuel Ha Hf) as (L & Hs & E & HL).
  assert (HLn : L <> []) by (intros ->; apply H0; exact (repr_vacia_tam _ Hs)).
  destruct (eliminar_spec s L Hs HLn)
    as (c & nc & A & B & Hc & _ & EL & s' & E' & Hs' & _).
  exists c, A, B, s'. split; [exact Hc|]. rewrite <- EL. split; [exact E|].
  split; [exact E'|]. split.
  - apply todas_spec; [exact (repr_inv _ _ Hs')|].
    destruct (repr_inv _ _ Hs') as (_ & -> & _). rewrite EL, length_app in HL.
    rewrite length_app. simpl in HL. lia.
  - destruct (repr_inv _ _ Hs) as (Hnd & _). rewrite EL in Hnd.
    apply NoDup_rot, NoDup_cons in Hnd as [Hn _]. intros Hin. apply Hn.
    apply list_elem_of_In. apply in_app_or in Hin as [H|H]; apply in_or_app; [right|left]; exact H.
Qed.

(** X12: in every reachable state, [obtener_cancion_actual] returns
    [None] exactly when [obtener_todas_las_canciones] returns no song,
    and otherwise one of the songs it returns. *)
Theorem actual_en_recorrido s fuel :
  alcanzable s -> tamanio s <= fuel ->
  exists L, obtener_todas_las_canciones fuel s = Some (s, L) /\
    obtener_cancion_actual s = Some (s, actual s) /\
    match actual s with None => L = [] | Some c => In c L end.
Proof.
  intros Ha Hf. destruct (alcanzable_recorrido s fuel Ha Hf) as (L & Hs & E & _).
  exists L. split; [exact E|]. split; [reflexivity|]. exact (repr_actual _ _ Hs).
Qed.

(** * Instances of the code properties on concrete inputs *)

Lemma formato_duracion_inyectiva_witness :
  let d1 := 125%Z in let d2 := 125%Z in
  formato_duracion d1 = formato_duracion d2 /\ d1 = d2.
Proof.
  cbv zeta. split; [reflexivity|]. apply (formato_duracion_inyectiva 125 125). reflexivity.
Defined.

Lemma nodo_str_duracion_witness :
  let n1 := mk_nodo "A"%string "Artista"%string 125%Z "a.mp3"%string 0 0 in
  let n2 := mk_nodo "A"%string "Artista"%string 125%Z "copia/a.mp3"%string 1 1 in
  titulo n1 = titulo n2 /\ artista n1 = artista n2 /\ nodo_str n1 = nodo_str n2 /\
  duracion n1 = duracion n2.
Proof.
  cbv zeta. split; [reflexivity|]. split; [reflexivity|]. split; [vm_compute; reflexivity|].
  apply nodo_str_duracion; [reflexivity | reflexivity | vm_compute; reflexivity].
Defined.

Lemma datos_inmutables_witness :
  let s := lista_tres in let s' := lista_tras_eliminar in let l := 0 in
  let n := mk_nodo "A"%string "Artista"%string 125%Z "a.mp3"%string 2 1 in
  alcanzable s /\ rtc paso s s' /\ heap s !! l = Some n /\
  exists n', heap s' !! l = Some n' /\
    titulo n' = titulo n /\ artista n' = artista n /\
    duracion n' = duracion n /\ ruta n' = ruta n.
Proof.
  cbv zeta.
  assert (Hp : rtc paso lista_tres lista_tras_eliminar).
  { apply rtc_once. apply (paso_eliminar _ _ (Some 0)). vm_compute. reflexivity. }
  split; [exact (alcanzable_tras tres_canciones)|]. split; [exact Hp|].
  split; [vm_compute; reflexivity|].
  apply (datos_inmutables lista_tres lista_tras_eliminar 0);
    [exact (alcanzable_tras tres_canciones) | exact Hp | vm_compute; reflexivity].
Defined.

Lemma tabla_tras_agregar_witness :
  let ts := tres_canciones in let fuel := 3 in let cm := @nil loc in let ca := @None loc in
  length ts <= fuel /\
  exists s ls w,
    agregar_varias ts lista_vacia = Some (s, ls) /\
    update_view fuel (mk_widget s cm ca) = Some (w, tt) /\
    canciones_modelo w = ls /\
    (forall i t a d r, ts !! i = Some (t, a, d, r) ->
       data_display (heap (lista_reproduccion w)) (canciones_modelo w) true (Z.of_nat i) 0
         = Some (Some t) /\
       data_display (heap (lista_reproduccion w)) (canciones_modelo w) true (Z.of_nat i) 1
         = Some (Some a) /\
       data_display (heap (lista_reproduccion w)) (canciones_modelo w) true (Z.of_nat i) 2
         = Some (Some (formato_duracion d))) /\
    (forall fila columna, (fila < 0 \/ Z.of_nat (length ts) <= fila)%Z ->
       data_display (heap (lista_reproduccion w)) (canciones_modelo w) true fila columna
         = Some None).
Proof.
  cbv zeta. split; [simpl; lia|].
  apply (tabla_tras_agregar tres_canciones 3 [] None). simpl. lia.
Defined.

Lemma quitar_fila_witness :
  let s := lista_tres in let fuel := 3 in let row := 1 in
  let rest := @nil nat in let cm := @nil loc in let ca := @None loc in
  alcanzable s /\ tamanio s <= fuel /\
  exists L, obtener_todas_las_canciones fuel s = Some (s, L) /\
  forall x, L !! row = Some x ->
  exists s',
    on_remove_clicked fuel (row :: rest) (mk_widget s cm ca) =
      Some (mk_widget s' (delete row L)
              (match actual s' with Some c => Some c | None => ca end), [x]) /\
    obtener_todas_las_canciones fuel s' = Some (s', delete row L) /\
    (actual s <> Some x -> actual s' = actual s) /\
    (actual s = Some x ->
       exists n, heap s !! x = Some n /\
         actual s' = (if decide (length L = 1) then None else Some (siguiente n))).
Proof.
  cbv zeta. split; [exact (alcanzable_tras tres_canciones)|].
  split; [vm_compute; lia|].
  apply (quitar_fila lista_tres 3 1 [] [] None);
    [exact (alcanzable_tras tres_canciones) | vm_compute; lia].
Defined.

Lemma quitar_sin_fila_witness :
  let s := lista_tres in let fuel := 3 in let cm := @nil loc in let ca := @None loc in
  alcanzable s /\ tamanio s <= fuel /\
  on_remove_clicked fuel [] (mk_widget s cm ca) = Some (mk_widget s cm ca, []) /\
  forall row rest, tamanio s <= row ->
    exists w', on_remove_clicked fuel (row :: rest) (mk_widget s cm ca) = Some (w', []) /\
               lista_reproduccion w' = s.
Proof.
  cbv zeta. split; [exact (alcanzable_tras tres_canciones)|].
  split; [vm_compute; lia|].
  apply (quitar_sin_fila lista_tres 3 [] None);
    [exact (alcanzable_tras tres_canciones) | vm_compute; lia].
Defined.

Lemma seleccionar_fila_witness :
  let s := lista_tres in let fuel := 3 in let row := 2 in
  let cm := @nil loc in let ca := @None loc in
  alcanzable s /\ tamanio s <= fuel /\
  exists L, obtener_todas_las_canciones fuel s = Some (s, L) /\
  on_table_double_clicked fuel row (mk_widget s cm ca) =
  match L !! row with
  | Some x => Some (mk_widget (with_actual s (Some x)) cm
                      (if decide (actual s = Some x) then ca else Some x), [Some x])
  | None => Some (mk_widget s cm ca, [])
  end.
Proof.
  cbv zeta. split; [exact (alcanzable_tras tres_canciones)|].
  split; [vm_compute; lia|].
  apply (seleccionar_fila lista_tres 3 2 [] None);
    [exact (alcanzable_tras tres_canciones) | vm_compute; lia].
Defined.

Lemma botones_navegacion_witness :
  let s := lista_tres in let fuel := 3 in let cm := @nil loc in let ca := @None loc in
  alcanzable s /\ tamanio s <= fuel /\
  exists L, obtener_todas_las_canciones fuel s = Some (s, L) /\
  (exists r,
     next_song fuel (mk_widget s cm ca) =
       Some (mk_widget (with_actual s r) L (match r with Some c => Some c | None => ca end), r) /\
     match actual s with
     | None => r = None
     | Some c => exists n, heap s !! c = Some n /\ r = Some (siguiente n)
     end) /\
  (exists r,
     cancion_anterior_widget fuel (mk_widget s cm ca) =
       Some (mk_widget (with_actual s r) L (match r with Some c => Some c | None => ca end), r) /\
     match actual s with
     | None => r = None
     | Some c => exists n, heap s !! c = Some n /\ r = Some (anterior n)
     end).
Proof.
  cbv zeta. split; [exact (alcanzable_tras tres_canciones)|].
  split; [vm_compute; lia|].
  apply (botones_navegacion lista_tres 3 [] None);
    [exact (alcanzable_tras tres_canciones) | vm_compute; lia].
Defined.

Lemma widget_sincronizado_witness :
  let w := mk_widget lista_tres [0; 1; 2] (Some 0) in let fuel := 3 in
  sincronizado w /\ tamanio (lista_reproduccion w) <= fuel /\
  (forall indexes, exists w' e, on_remove_clicked fuel indexes w = Some (w', e) /\ sincronizado w') /\
  (forall row, exists w' e, on_table_double_clicked fuel row w = Some (w', e) /\ sincronizado w') /\
  (exists w' r, next_song fuel w = Some (w', r) /\ sincronizado w') /\
  (exists w' r, cancion_anterior_widget fuel w = Some (w', r) /\ sincronizado w').
Proof.
  cbv zeta.
  assert (Hw : sincronizado (mk_widget lista_tres [0; 1; 2] (Some 0))).
  { destruct (alcanzable_repr _ (alcanzable_tras tres_canciones)) as (L & Hs).
    assert (EL : L = [0; 1; 2]).
    { assert (Ht : tamanio lista_tres <= 3) by (vm_compute; lia).
      pose proof (todas_spec 3 lista_tres L (repr_inv _ _ Hs) Ht) as E.
      assert (E3 : obtener_todas_las_canciones 3 lista_tres = Some (lista_tres, [0; 1; 2]))
        by (vm_compute; reflexivity).
      rewrite E3 in E. injection E as E. symmetry. exact E. }
    subst L. exists [0; 1; 2]. cbn [lista_reproduccion canciones_modelo cancion_actual_modelo].
    split; [exact Hs|]. split; [reflexivity|].
    intros c Ec. vm_compute in Ec. exact Ec. }
  split; [exact Hw|]. split; [vm_compute; lia|].
  apply (widget_sincronizado (mk_widget lista_tres [0; 1; 2] (Some 0)) 3);
    [exact Hw | vm_compute; lia].
Defined.

Lemma agregar_al_final_witness :
  let t := "D"%string in let a := "Artista"%string in let d := 90%Z in
  let r := "d.mp3"%string in let s := lista_tres in let fuel := 4 in
  alcanzable s /\ S (tamanio s) <= fuel /\
  exists L s' z n,
    obtener_todas_las_canciones fuel s = Some (s, L) /\
    agregar_cancion t a d r s = Some (s', z) /\
    ~ In z L /\
    heap s' !! z = Some n /\
    titulo n = t /\ artista n = a /\ duracion n = d /\ ruta n = r /\
    obtener_todas_las_canciones fuel s' = Some (s', L ++ [z]).
Proof.
  cbv zeta. split; [exact (alcanzable_tras tres_canciones)|].
  split; [vm_compute; lia|].
  apply (agregar_al_final "D"%string "Artista"%string 90%Z "d.mp3"%string lista_tres 4);
    [exact (alcanzable_tras tres_canciones) | vm_compute; lia].
Defined.

Lemma eliminar_del_recorrido_witness :
  let s := lista_tres in let fuel := 3 in
  alcanzable s /\ tamanio s <> 0 /\ tamanio s <= fuel /\
  exists c A B s',
    actual s = Some c /\
    obtener_todas_las_canciones fuel s = Some (s, A ++ c :: B) /\
    eliminar_cancion_actual s = Some (s', Some c) /\
    obtener_todas_las_canciones fuel s' = Some (s', A ++ B) /\
    ~ In c (A ++ B).
Proof.
  cbv zeta. split; [exact (alcanzable_tras tres_canciones)|].
  split; [vm_compute; discriminate|]. split; [vm_compute; lia|].
  apply (eliminar_del_recorrido lista_tres 3);
    [exact (alcanzable_tras tres_canciones) | vm_compute; discriminate | vm_compute; lia].
Defined.

Lemma actual_en_recorrido_witness :
  let s := lista_tres in let fuel := 3 in
  alcanzable s /\ tamanio s <= fuel /\
  exists L, obtener_todas_las_canciones fuel s = Some (s, L) /\
    obtener_cancion_actual s = Some (s, actual s) /\
    match actual s with None => L = [] | Some c => In c L end.
Proof.
  cbv zeta. split; [exact (alcanzable_tras tres_canciones)|].
  split; [vm_compute; lia|].
  apply (actual_en_recorrido lista_tres 3);
    [exact (alcanzable_tras tres_canciones) | vm_compute; lia].
Defined.
